(** * SkSL IR node data model (src/sksl/ir/SkSLIRNode.h)

    A shallow embedding of [SkSL::IRNode]: the per-shape payload structs,
    the manually discriminated [NodeData] variant with its copy
    assignment and [cleanup], the node's accessors, [type()], the copy
    assignment of a node and the teardown order of its members.

    Shared ownership ([std::shared_ptr<SymbolTable>]) is modelled by a
    store of use counts, one per scope table, together with a log of the
    events a teardown makes visible.  Contract violations ([SkASSERT],
    [SkUNREACHABLE]) and null dereferences are explicit outcomes. *)

From Stdlib Require Import ZArith String.
From stdpp Require Import gmap list.

Local Open Scope Z_scope.

(** ** Addresses, pointers and outcomes *)

(** Objects that live outside the node (types, functions, variables,
    symbols, external values, scope tables) are identified by address. *)
Definition loc := N.

(** A raw pointer: [T*].  Weak (non-owning) references are raw pointers. *)
Inductive ptr : Type :=
| nullptr
| addr (l : loc).

Arguments addr l%_N.

Global Instance ptr_eq_dec : EqDecision ptr.
Proof. solve_decision. Defined.

(** What a call can do: return, abort on a contract violation, or
    dereference a null pointer. *)
Inductive outcome (A : Type) : Type :=
| Ok (a : A)
| Fault
| NullDeref.

Arguments Ok {A} a.
Arguments Fault {A}.
Arguments NullDeref {A}.

Global Instance outcome_ret : MRet outcome := fun A a => Ok a.

Global Instance outcome_bind : MBind outcome := fun A B k m =>
  match m with
  | Ok a => k a
  | Fault => Fault
  | NullDeref => NullDeref
  end.

(** Modelled from the spec: the [SkASSERT] macro is defined outside this
    header; section 7 of the specification makes every contract violation
    an unconditional fault (immediate abort). *)
Definition SkASSERT (cond : bool) : outcome unit :=
  if cond then Ok tt else Fault.

(** Modelled from the spec: the [SkUNREACHABLE] macro is defined outside
    this header; reaching it is a fault, never a returned value. *)
Definition SkUNREACHABLE {A : Type} : outcome A := Fault.

(** [*p] on a raw pointer: the referenced object, by address. *)
Definition deref (p : ptr) : outcome loc :=
  match p with
  | nullptr => NullDeref
  | addr l => Ok l
  end.

(** ** Machine integers *)

Definition wrap (bits : Z) (z : Z) : Z :=
  (z + 2 ^ (bits - 1)) mod 2 ^ bits - 2 ^ (bits - 1).

(** Conversion to [int], [int16_t] and [int8_t]. *)
Definition to_int (z : Z) : Z := wrap 32 z.
Definition to_int16 (z : Z) : Z := wrap 16 z.
Definition to_int8 (z : Z) : Z := wrap 8 z.

(** ** The shared store: use counts of scope tables *)

(** Teardown-visible events, in the order they happen. *)
Inductive Event : Type :=
| EvAcquire (t : loc)     (* a handle to table [t] was duplicated *)
| EvRelease (t : loc)     (* a handle to table [t] was released *)
| EvFree (t : loc)        (* the use count of [t] reached zero: [t] is destroyed *)
| EvDestroyed (a : loc).  (* the child object at [a] finished destructing *)

Global Instance Event_eq_dec : EqDecision Event.
Proof. solve_decision. Defined.

Record State : Type := mkState {
  use_count : gmap N nat;
  log : list Event
}.

(** [std::shared_ptr<SymbolTable>]: null or a share of the table at an
    address. *)
Definition shared_ptr := ptr.

Definition share_count (st : State) (t : loc) : nat :=
  default 0%nat (use_count st !! t).

Arguments share_count st t%_N.

(** Copy-constructing a handle: one more share. *)
Definition shared_ptr_acquire (p : shared_ptr) (st : State) : State :=
  match p with
  | nullptr => st
  | addr t =>
      {| use_count := <[t := S (share_count st t)]> (use_count st);
         log := log st ++ [EvAcquire t] |}
  end.

(** Destroying a handle: one share less; the table dies with its last
    share. *)
Definition shared_ptr_release (p : shared_ptr) (st : State) : State :=
  match p with
  | nullptr => st
  | addr t =>
      match share_count st t with
      | S (S c) =>
          {| use_count := <[t := S c]> (use_count st);
             log := log st ++ [EvRelease t] |}
      | _ =>
          {| use_count := delete t (use_count st);
             log := log st ++ [EvRelease t; EvFree t] |}
      end
  end.

(** [dst = src] on handles: [shared_ptr(src).swap(dst)], that is, acquire
    the new share first, then drop the old one. *)
Definition shared_ptr_assign (dst src : shared_ptr) (st : State)
  : shared_ptr * State :=
  (src, shared_ptr_release dst (shared_ptr_acquire src st)).

(** ** Payload shapes *)

(** [StringFragment] and [String] are held by value; a [float] is its
    32-bit pattern; [Token::Kind] is the enumerator's value and
    [ModifiersPool::Handle] the small handle the pool hands out. *)
Definition StringFragment := string.
Definition float32 := Z.
Definition Token_Kind := Z.
Definition ModifiersPool_Handle := Z.

Module BlockData.
Record t : Type := mk {
  fSymbolTable : shared_ptr;
  fIsScope : bool
}.
End BlockData.

Module BoolLiteralData.
Record t : Type := mk {
  fType : ptr;
  fValue : bool
}.
End BoolLiteralData.

Module EnumData.
Record t : Type := mk {
  fTypeName : StringFragment;
  fSymbols : shared_ptr;
  fIsBuiltin : bool
}.
End EnumData.

Module ExternalValueData.
Record t : Type := mk {
  fType : ptr;
  fValue : ptr
}.
End ExternalValueData.

Module FieldData.
Record t : Type := mk {
  fName : StringFragment;
  fType : ptr;
  fOwner : ptr;
  fFieldIndex : Z
}.
End FieldData.

Module FloatLiteralData.
Record t : Type := mk {
  fType : ptr;
  fValue : float32
}.
End FloatLiteralData.

Module ForStatementData.
Record t : Type := mk {
  fSymbolTable : shared_ptr
}.
End ForStatementData.

Module FunctionCallData.
Record t : Type := mk {
  fType : ptr;
  fFunction : ptr
}.
End FunctionCallData.

Module IntLiteralData.
Record t : Type := mk {
  fType : ptr;
  fValue : Z
}.
End IntLiteralData.

Module SymbolData.
Record t : Type := mk {
  fName : StringFragment;
  fType : ptr
}.
End SymbolData.

Module SymbolAliasData.
Record t : Type := mk {
  fName : StringFragment;
  fOrigSymbol : ptr
}.
End SymbolAliasData.

Module TypeTokenData.
Record t : Type := mk {
  fType : ptr;
  fToken : Token_Kind
}.
End TypeTokenData.

Module VariableData.
Record t : Type := mk {
  fName : StringFragment;
  fType : ptr;
  fInitialValue : ptr;
  fModifiersHandle : ModifiersPool_Handle;
  fReadCount : Z;
  fWriteCount : Z;
  fStorage : Z;
  fBuiltin : bool
}.

(** [fReadCount = v] and [fWriteCount = v] through a reference to the
    payload: the stored value is the [int16_t] conversion of [v]. *)
Definition set_fReadCount (v : Z) (d : t) : t :=
  mk (fName d) (fType d) (fInitialValue d) (fModifiersHandle d)
     (to_int16 v) (fWriteCount d) (fStorage d) (fBuiltin d).

Definition set_fWriteCount (v : Z) (d : t) : t :=
  mk (fName d) (fType d) (fInitialValue d) (fModifiersHandle d)
     (fReadCount d) (to_int16 v) (fStorage d) (fBuiltin d).
End VariableData.

(** ** The payload variant *)

Module NodeData.

Inductive Kind : Type :=
| kBlock
| kBoolLiteral
| kEnum
| kExternalValue
| kField
| kFloatLiteral
| kForStatement
| kFunctionCall
| kIntLiteral
| kString
| kSymbol
| kSymbolAlias
| kType
| kTypeToken
| kVariable.

Global Instance Kind_eq_dec : EqDecision Kind.
Proof. solve_decision. Defined.

(** The discriminant together with the active member of [Contents]. *)
Inductive t : Type :=
| fBlock (d : BlockData.t)
| fBoolLiteral (d : BoolLiteralData.t)
| fEnum (d : EnumData.t)
| fExternalValue (d : ExternalValueData.t)
| fField (d : FieldData.t)
| fFloatLiteral (d : FloatLiteralData.t)
| fForStatement (d : ForStatementData.t)
| fFunctionCall (d : FunctionCallData.t)
| fIntLiteral (d : IntLiteralData.t)
| fString (d : string)
| fSymbol (d : SymbolData.t)
| fSymbolAlias (d : SymbolAliasData.t)
| fType (d : ptr)
| fTypeToken (d : TypeTokenData.t)
| fVariable (d : VariableData.t).

Definition fKind (nd : t) : Kind :=
  match nd with
  | fBlock _ => kBlock
  | fBoolLiteral _ => kBoolLiteral
  | fEnum _ => kEnum
  | fExternalValue _ => kExternalValue
  | fField _ => kField
  | fFloatLiteral _ => kFloatLiteral
  | fForStatement _ => kForStatement
  | fFunctionCall _ => kFunctionCall
  | fIntLiteral _ => kIntLiteral
  | fString _ => kString
  | fSymbol _ => kSymbol
  | fSymbolAlias _ => kSymbolAlias
  | fType _ => kType
  | fTypeToken _ => kTypeToken
  | fVariable _ => kVariable
  end.

(** [*(new(&fContents) BlockData) = data]: the placement-new object has a
    null handle, and the implicit copy assignment then assigns member by
    member.  Likewise for [EnumData] and [ForStatementData]. *)
Definition emplace_BlockData (data : BlockData.t) (st : State)
  : BlockData.t * State :=
  let '(h, st1) := shared_ptr_assign nullptr (BlockData.fSymbolTable data) st in
  (BlockData.mk h (BlockData.fIsScope data), st1).

Definition emplace_EnumData (data : EnumData.t) (st : State)
  : EnumData.t * State :=
  let '(h, st1) := shared_ptr_assign nullptr (EnumData.fSymbols data) st in
  (EnumData.mk (EnumData.fTypeName data) h (EnumData.fIsBuiltin data), st1).

Definition emplace_ForStatementData (data : ForStatementData.t) (st : State)
  : ForStatementData.t * State :=
  let '(h, st1) :=
    shared_ptr_assign nullptr (ForStatementData.fSymbolTable data) st in
  (ForStatementData.mk h, st1).

(** The converting constructors [NodeData(const XData&)]. *)
Definition of_BlockData (data : BlockData.t) (st : State) : t * State :=
  let '(d, st1) := emplace_BlockData data st in (fBlock d, st1).
Definition of_EnumData (data : EnumData.t) (st : State) : t * State :=
  let '(d, st1) := emplace_EnumData data st in (fEnum d, st1).
Definition of_ForStatementData (data : ForStatementData.t) (st : State)
  : t * State :=
  let '(d, st1) := emplace_ForStatementData data st in (fForStatement d, st1).
Definition of_BoolLiteralData (data : BoolLiteralData.t) : t := fBoolLiteral data.
Definition of_ExternalValueData (data : ExternalValueData.t) : t :=
  fExternalValue data.
Definition of_FieldData (data : FieldData.t) : t := fField data.
Definition of_FloatLiteralData (data : FloatLiteralData.t) : t :=
  fFloatLiteral data.
Definition of_FunctionCallData (data : FunctionCallData.t) : t :=
  fFunctionCall data.
Definition of_IntLiteralData (data : IntLiteralData.t) : t := fIntLiteral data.
Definition of_String (data : string) : t := fString data.
Definition of_SymbolData (data : SymbolData.t) : t := fSymbol data.
Definition of_SymbolAliasData (data : SymbolAliasData.t) : t :=
  fSymbolAlias data.
Definition of_Type (data : ptr) : t := fType data.
Definition of_TypeTokenData (data : TypeTokenData.t) : t := fTypeToken data.
Definition of_VariableData (data : VariableData.t) : t := fVariable data.

(** [cleanup()]: run the destructor of the active member.  Only the
    members holding a handle have a destructor with an effect on the
    store. *)
Definition cleanup (this : t) (st : State) : State :=
  match this with
  | fBlock d => shared_ptr_release (BlockData.fSymbolTable d) st
  | fBoolLiteral _ => st
  | fEnum d => shared_ptr_release (EnumData.fSymbols d) st
  | fExternalValue _ => st
  | fField _ => st
  | fFloatLiteral _ => st
  | fForStatement d => shared_ptr_release (ForStatementData.fSymbolTable d) st
  | fFunctionCall _ => st
  | fIntLiteral _ => st
  | fString _ => st
  | fSymbol _ => st
  | fSymbolAlias _ => st
  | fType _ => st
  | fTypeToken _ => st
  | fVariable _ => st
  end.

(** [operator=(const NodeData& other)], for [other] an object distinct
    from [*this]: [cleanup()], then [fKind = other.fKind] and the member
    selected by the new kind is emplaced from [other]. *)
Definition assign (this other : t) (st : State) : t * State :=
  let st1 := cleanup this st in
  match other with
  | fBlock d => let '(d', st2) := emplace_BlockData d st1 in (fBlock d', st2)
  | fBoolLiteral d => (fBoolLiteral d, st1)
  | fEnum d => let '(d', st2) := emplace_EnumData d st1 in (fEnum d', st2)
  | fExternalValue d => (fExternalValue d, st1)
  | fField d => (fField d, st1)
  | fFloatLiteral d => (fFloatLiteral d, st1)
  | fForStatement d =>
      let '(d', st2) := emplace_ForStatementData d st1 in (fForStatement d', st2)
  | fFunctionCall d => (fFunctionCall d, st1)
  | fIntLiteral d => (fIntLiteral d, st1)
  | fString d => (fString d, st1)
  | fSymbol d => (fSymbol d, st1)
  | fSymbolAlias d => (fSymbolAlias d, st1)
  | fType d => (fType d, st1)
  | fTypeToken d => (fTypeToken d, st1)
  | fVariable d => (fVariable d, st1)
  end.

(** A variant before its constructor body runs: the default member
    initialiser makes it [kType]; the pointer is never read. *)
Definition uninitialised : t := fType nullptr.

(** The copy constructor [NodeData(const NodeData& other) { *this = other; }]. *)
Definition copy (other : t) (st : State) : t * State :=
  assign uninitialised other st.

(** [~NodeData()]. *)
Definition destroy (this : t) (st : State) : State := cleanup this st.

(** The handles a variant holds, and how many of them are shares of [tbl]. *)
Definition handles (nd : t) : list shared_ptr :=
  match nd with
  | fBlock d => [BlockData.fSymbolTable d]
  | fEnum d => [EnumData.fSymbols d]
  | fForStatement d => [ForStatementData.fSymbolTable d]
  | _ => []
  end.

Definition shares (tbl : loc) (nd : t) : nat :=
  length (filter (λ p, p = addr tbl) (handles nd)).

(** The weak references a variant holds (types, functions, variables,
    symbols, external values, initial-value expressions). *)
Definition weak_refs (nd : t) : list ptr :=
  match nd with
  | fBlock _ => []
  | fBoolLiteral d => [BoolLiteralData.fType d]
  | fEnum _ => []
  | fExternalValue d => [ExternalValueData.fType d; ExternalValueData.fValue d]
  | fField d => [FieldData.fType d; FieldData.fOwner d]
  | fFloatLiteral d => [FloatLiteralData.fType d]
  | fForStatement _ => []
  | fFunctionCall d => [FunctionCallData.fType d; FunctionCallData.fFunction d]
  | fIntLiteral d => [IntLiteralData.fType d]
  | fString _ => []
  | fSymbol d => [SymbolData.fType d]
  | fSymbolAlias d => [SymbolAliasData.fOrigSymbol d]
  | fType d => [d]
  | fTypeToken d => [TypeTokenData.fType d]
  | fVariable d => [VariableData.fType d; VariableData.fInitialValue d]
  end.

(** What [new(&fContents) X] leaves when [X] is the kind the storage
    held before: a handle is null, a [String] is empty, [fInitialValue]
    takes its default member initialiser, and the members without an
    initialiser keep what the storage holds. *)
Definition reinitialised (nd : t) : t :=
  match nd with
  | fBlock d => fBlock (BlockData.mk nullptr (BlockData.fIsScope d))
  | fEnum d =>
      fEnum (EnumData.mk (EnumData.fTypeName d) nullptr (EnumData.fIsBuiltin d))
  | fForStatement _ => fForStatement (ForStatementData.mk nullptr)
  | fString _ => fString ""
  | fVariable d =>
      fVariable (VariableData.mk (VariableData.fName d) (VariableData.fType d)
                   nullptr (VariableData.fModifiersHandle d)
                   (VariableData.fReadCount d) (VariableData.fWriteCount d)
                   (VariableData.fStorage d) (VariableData.fBuiltin d))
  | _ => nd
  end.

(** [operator=(const NodeData& other)] when [other] is [*this]: the
    operator has no test for this case.  [cleanup()] destroys the active
    member, [fKind = other.fKind] changes nothing, and the member emplaced
    in the same storage is then assigned from itself, which leaves it as
    the placement-new made it. *)
Definition assign_self (this : t) (st : State) : t * State :=
  let st1 := cleanup this st in
  (reinitialised this, st1).

(** The source operand of an assignment: the destination itself, or
    another object. *)
Inductive operand : Type :=
| itself
| another (other : t).

Definition assign_from (this : t) (src : operand) (st : State) : t * State :=
  match src with
  | itself => assign_self this st
  | another other => assign this other st
  end.

(** The kinds whose member is made of scalars and raw pointers declared
    in this header only: [cleanup()] runs no destructor code for them,
    whatever the storage holds. *)
Definition scalar_only (k : Kind) : bool :=
  match k with
  | kBoolLiteral | kExternalValue | kFloatLiteral | kFunctionCall
  | kIntLiteral | kType | kTypeToken => true
  | _ => false
  end.

End NodeData.

(** ** The node *)

Definition emit (e : Event) (st : State) : State :=
  {| use_count := use_count st; log := log st ++ [e] |}.

Module IRNode.

(** [std::unique_ptr<T>]: null, or the sole owner of the object at an
    address. *)
Inductive unique_ptr (A : Type) : Type :=
| null
| owns (a : loc) (obj : A).

Arguments null {A}.
Arguments owns {A} a%_N obj.

(** Children are nodes themselves ([Expression] and [Statement] derive
    from [IRNode]).  Fields are listed in declaration order. *)
#[warnings="-register-all"]
Inductive t : Type := mk {
  fOffset : Z;
  fKind : Z;
  fData : NodeData.t;
  fExpressionChildren : list (unique_ptr t);
  fStatementChildren : list (unique_ptr t)
}.

(** A reference to a child: where it lives and what it is. *)
Definition ref : Type := loc * t.

Definition deref_unique (p : unique_ptr t) : outcome ref :=
  match p with
  | null => NullDeref
  | owns a obj => Ok (a, obj)
  end.

(** *** Payload accessors

    [SkASSERT(fData.fKind == ...)], then the member of that kind; the last
    branch of each [match] is never reached once the assertion has passed. *)

Definition blockData (n : t) : outcome BlockData.t :=
  _ ← SkASSERT (bool_decide (NodeData.fKind (fData n) = NodeData.kBlock));
  match fData n with NodeData.fBlock d => Ok d | _ => Fault end.
Definition boolLiteralData (n : t) : outcome BoolLiteralData.t :=
  _ ← SkASSERT (bool_decide (NodeData.fKind (fData n) = NodeData.kBoolLiteral));
  match fData n with NodeData.fBoolLiteral d => Ok d | _ => Fault end.
Definition enumData (n : t) : outcome EnumData.t :=
  _ ← SkASSERT (bool_decide (NodeData.fKind (fData n) = NodeData.kEnum));
  match fData n with NodeData.fEnum d => Ok d | _ => Fault end.
Definition externalValueData (n : t) : outcome ExternalValueData.t :=
  _ ← SkASSERT (bool_decide (NodeData.fKind (fData n) = NodeData.kExternalValue));
  match fData n with NodeData.fExternalValue d => Ok d | _ => Fault end.
Definition fieldData (n : t) : outcome FieldData.t :=
  _ ← SkASSERT (bool_decide (NodeData.fKind (fData n) = NodeData.kField));
  match fData n with NodeData.fField d => Ok d | _ => Fault end.
Definition floatLiteralData (n : t) : outcome FloatLiteralData.t :=
  _ ← SkASSERT (bool_decide (NodeData.fKind (fData n) = NodeData.kFloatLiteral));
  match fData n with NodeData.fFloatLiteral d => Ok d | _ => Fault end.
Definition forStatementData (n : t) : outcome ForStatementData.t :=
  _ ← SkASSERT (bool_decide (NodeData.fKind (fData n) = NodeData.kForStatement));
  match fData n with NodeData.fForStatement d => Ok d | _ => Fault end.
Definition functionCallData (n : t) : outcome FunctionCallData.t :=
  _ ← SkASSERT (bool_decide (NodeData.fKind (fData n) = NodeData.kFunctionCall));
  match fData n with NodeData.fFunctionCall d => Ok d | _ => Fault end.
Definition intLiteralData (n : t) : outcome IntLiteralData.t :=
  _ ← SkASSERT (bool_decide (NodeData.fKind (fData n) = NodeData.kIntLiteral));
  match fData n with NodeData.fIntLiteral d => Ok d | _ => Fault end.
Definition stringData (n : t) : outcome string :=
  _ ← SkASSERT (bool_decide (NodeData.fKind (fData n) = NodeData.kString));
  match fData n with NodeData.fString d => Ok d | _ => Fault end.
Definition symbolData (n : t) : outcome SymbolData.t :=
  _ ← SkASSERT (bool_decide (NodeData.fKind (fData n) = NodeData.kSymbol));
  match fData n with NodeData.fSymbol d => Ok d | _ => Fault end.
Definition symbolAliasData (n : t) : outcome SymbolAliasData.t :=
  _ ← SkASSERT (bool_decide (NodeData.fKind (fData n) = NodeData.kSymbolAlias));
  match fData n with NodeData.fSymbolAlias d => Ok d | _ => Fault end.
Definition typeData (n : t) : outcome ptr :=
  _ ← SkASSERT (bool_decide (NodeData.fKind (fData n) = NodeData.kType));
  match fData n with NodeData.fType d => Ok d | _ => Fault end.
Definition typeTokenData (n : t) : outcome TypeTokenData.t :=
  _ ← SkASSERT (bool_decide (NodeData.fKind (fData n) = NodeData.kTypeToken));
  match fData n with NodeData.fTypeToken d => Ok d | _ => Fault end.
Definition variableData (n : t) : outcome VariableData.t :=
  _ ← SkASSERT (bool_decide (NodeData.fKind (fData n) = NodeData.kVariable));
  match fData n with NodeData.fVariable d => Ok d | _ => Fault end.

(** *** [type()] *)

Definition type (n : t) : outcome loc :=
  match NodeData.fKind (fData n) with
  | NodeData.kBoolLiteral =>
      d ← boolLiteralData n; deref (BoolLiteralData.fType d)
  | NodeData.kExternalValue =>
      d ← externalValueData n; deref (ExternalValueData.fType d)
  | NodeData.kField =>
      d ← fieldData n; deref (FieldData.fType d)
  | NodeData.kFloatLiteral =>
      d ← floatLiteralData n; deref (FloatLiteralData.fType d)
  | NodeData.kFunctionCall =>
      d ← functionCallData n; deref (FunctionCallData.fType d)
  | NodeData.kIntLiteral =>
      d ← intLiteralData n; deref (IntLiteralData.fType d)
  | NodeData.kSymbol =>
      d ← symbolData n; deref (SymbolData.fType d)
  | NodeData.kType =>
      d ← typeData n; deref d
  | NodeData.kTypeToken =>
      d ← typeTokenData n; deref (TypeTokenData.fType d)
  | NodeData.kVariable =>
      d ← variableData n; deref (VariableData.fType d)
  | _ => SkUNREACHABLE
  end.

(** The default argument of
    [IRNode(int offset, int kind, const Type* data = nullptr)]. *)
Definition default_Type_argument : ptr := nullptr.

(** *** Child storage *)

(** [(int) v.size()]. *)
Definition int_size {A : Type} (v : list A) : Z := to_int (Z.of_nat (length v)).

(** [index >= 0 && index < (int) v.size()]. *)
Definition in_bounds {A : Type} (index : Z) (v : list A) : bool :=
  (0 <=? index) && (index <? int_size v).

(** [v[index]] once the index is known to be in bounds. *)
Definition at_index (index : Z) (v : list (unique_ptr t)) : unique_ptr t :=
  default null (v !! Z.to_nat index).

Definition expressionPointer (n : t) (index : Z) : outcome (unique_ptr t) :=
  _ ← SkASSERT (in_bounds index (fExpressionChildren n));
  Ok (at_index index (fExpressionChildren n)).

Definition expressionChild (n : t) (index : Z) : outcome ref :=
  _ ← SkASSERT (in_bounds index (fExpressionChildren n));
  deref_unique (at_index index (fExpressionChildren n)).

Definition expressionChildCount (n : t) : Z := int_size (fExpressionChildren n).

Definition statementPointer (n : t) (index : Z) : outcome (unique_ptr t) :=
  _ ← SkASSERT (in_bounds index (fStatementChildren n));
  Ok (at_index index (fStatementChildren n)).

Definition statementChild (n : t) (index : Z) : outcome ref :=
  _ ← SkASSERT (in_bounds index (fStatementChildren n));
  deref_unique (at_index index (fStatementChildren n)).

Definition statementChildCount (n : t) : Z := int_size (fStatementChildren n).

(** *** Copy assignment *)

Definition empty {A : Type} (v : list A) : bool :=
  match v with [] => true | _ => false end.

(** [operator=(const IRNode& other)], for [other] an object distinct
    from [*this]. *)
Definition assign (this other : t) (st : State) : outcome (t * State) :=
  _ ← SkASSERT (empty (fExpressionChildren other));
  let '(data, st1) := NodeData.assign (fData this) (fData other) st in
  Ok (mk (fOffset other) (fKind other) data
         (fExpressionChildren this) (fStatementChildren this), st1).

(** [operator=(const IRNode& other)] when [other] is [*this]: the
    assertion reads the node's own expression children, [fKind] and
    [fOffset] are assigned to themselves, and [fData = other.fData] is the
    self-assignment of the payload variant. *)
Definition assign_self (this : t) (st : State) : outcome (t * State) :=
  _ ← SkASSERT (empty (fExpressionChildren this));
  let '(data, st1) := NodeData.assign_self (fData this) st in
  Ok (mk (fOffset this) (fKind this) data
         (fExpressionChildren this) (fStatementChildren this), st1).

(** *** Destruction *)

(** Modelled from the spec: the body of [~IRNode()], which is declared
    here and defined out of line.  The destruction protocol of the
    specification has no step besides the teardown of the members, so
    the body does nothing. *)
Definition destructor_body (st : State) : State := st.

(** The destructor: its body, then the members in reverse declaration
    order, [fStatementChildren], [fExpressionChildren], [fData] (the
    integers need no teardown).  A vector destroys its elements in index
    order; destroying a non-null [unique_ptr] destroys the child it owns
    and frees it. *)
Fixpoint destroy (n : t) (st : State) : State :=
  let destroy_ptr := λ (s : State) (p : unique_ptr t),
    match p with
    | null => s
    | owns a child => emit (EvDestroyed a) (destroy child s)
    end in
  let st0 := destructor_body st in
  let st1 := foldl destroy_ptr st0 (fStatementChildren n) in
  let st2 := foldl destroy_ptr st1 (fExpressionChildren n) in
  NodeData.destroy (fData n) st2.

Definition destroy_ptr (s : State) (p : unique_ptr t) : State :=
  match p with
  | null => s
  | owns a child => emit (EvDestroyed a) (destroy child s)
  end.

Definition destroy_children (v : list (unique_ptr t)) (st : State) : State :=
  foldl destroy_ptr st v.

(** *** Writing through the references the accessors hand out *)

Definition with_fData (n : t) (d : NodeData.t) : t :=
  mk (fOffset n) (fKind n) d (fExpressionChildren n) (fStatementChildren n).

(** [blockData() = v], [symbolData() = v], [variableData() = v]. *)
Definition set_blockData (n : t) (v : BlockData.t) (st : State)
  : outcome (t * State) :=
  d ← blockData n;
  let '(h, st1) :=
    shared_ptr_assign (BlockData.fSymbolTable d) (BlockData.fSymbolTable v) st in
  Ok (with_fData n (NodeData.fBlock (BlockData.mk h (BlockData.fIsScope v))), st1).

Definition set_symbolData (n : t) (v : SymbolData.t) : outcome t :=
  _ ← symbolData n; Ok (with_fData n (NodeData.fSymbol v)).

Definition set_variableData (n : t) (v : VariableData.t) : outcome t :=
  _ ← variableData n; Ok (with_fData n (NodeData.fVariable v)).

(** [variableData().fReadCount = v] and [variableData().fWriteCount = v];
    both counters are [mutable]. *)
Definition set_fReadCount (n : t) (v : Z) : outcome t :=
  d ← variableData n;
  Ok (with_fData n (NodeData.fVariable (VariableData.set_fReadCount v d))).

Definition set_fWriteCount (n : t) (v : Z) : outcome t :=
  d ← variableData n;
  Ok (with_fData n (NodeData.fVariable (VariableData.set_fWriteCount v d))).

(** [expressionPointer(index) = std::move(p)] and
    [statementPointer(index) = std::move(p)]: the slot takes the new
    pointer and the child it owned before is destroyed. *)
Definition set_expressionPointer (n : t) (index : Z) (p : unique_ptr t)
  (st : State) : outcome (t * State) :=
  old ← expressionPointer n index;
  Ok (mk (fOffset n) (fKind n) (fData n)
         (<[Z.to_nat index := p]> (fExpressionChildren n))
         (fStatementChildren n),
      destroy_ptr st old).

Definition set_statementPointer (n : t) (index : Z) (p : unique_ptr t)
  (st : State) : outcome (t * State) :=
  old ← statementPointer n index;
  Ok (mk (fOffset n) (fKind n) (fData n)
         (fExpressionChildren n)
         (<[Z.to_nat index := p]> (fStatementChildren n)),
      destroy_ptr st old).

(** The operations a live node offers, and what each does to it. *)
Inductive operation : Type :=
| OpAssign (other : t)
| OpType
| OpExpressionChild (index : Z)
| OpStatementChild (index : Z)
| OpExpressionChildCount
| OpStatementChildCount
| OpSetBlockData (v : BlockData.t)
| OpSetSymbolData (v : SymbolData.t)
| OpSetVariableData (v : VariableData.t)
| OpSetReadCount (v : Z)
| OpSetWriteCount (v : Z)
| OpSetExpressionPointer (index : Z) (p : unique_ptr t)
| OpSetStatementPointer (index : Z) (p : unique_ptr t).

Definition perform (op : operation) (n : t) (st : State)
  : outcome (t * State) :=
  match op with
  | OpAssign other => assign n other st
  | OpType => _ ← type n; Ok (n, st)
  | OpExpressionChild index => _ ← expressionChild n index; Ok (n, st)
  | OpStatementChild index => _ ← statementChild n index; Ok (n, st)
  | OpExpressionChildCount => Ok (n, st)
  | OpStatementChildCount => Ok (n, st)
  | OpSetBlockData v => set_blockData n v st
  | OpSetSymbolData v => n' ← set_symbolData n v; Ok (n', st)
  | OpSetVariableData v => n' ← set_variableData n v; Ok (n', st)
  | OpSetReadCount v => n' ← set_fReadCount n v; Ok (n', st)
  | OpSetWriteCount v => n' ← set_fWriteCount n v; Ok (n', st)
  | OpSetExpressionPointer index p => set_expressionPointer n index p st
  | OpSetStatementPointer index p => set_statementPointer n index p st
  end.

(** The active payload shape of a node. *)
Definition shape (n : t) : NodeData.Kind := NodeData.fKind (fData n).

(** *** Induction over a tree of nodes *)

Definition child_all (P : t → Prop) (p : unique_ptr t) : Prop :=
  match p with
  | null => True
  | owns _ child => P child
  end.

Section tree_induction.
Variable P : t → Prop.
Hypothesis node_case : ∀ off k d es ss,
  Forall (child_all P) es → Forall (child_all P) ss → P (mk off k d es ss).

Fixpoint tree_ind (n : t) : P n :=
  let children_all :=
    fix go (v : list (unique_ptr t)) : Forall (child_all P) v :=
      match v with
      | [] => List.Forall_nil _
      | p :: v' =>
          @List.Forall_cons _ (child_all P) p v'
            (match p return child_all P p with
             | null => I
             | owns _ child => tree_ind child
             end)
            (go v')
      end in
  match n with
  | mk off k d es ss =>
      node_case off k d es ss (children_all es) (children_all ss)
  end.
End tree_induction.

End IRNode.

(** ** Dead-code eligibility of a variable *)

Section DeadCode.
(** The enumerators of [Variable::Storage] are declared outside this
    header; [fStorage] holds one of them as an [int8_t]. *)
Variable kOut_Storage : Z.

(** Modelled from the spec: the dead-code eligibility predicate of
    scenario C, read-count == 0 AND storage-class != out.  No function
    of this header computes it. *)
Definition dead_code_eligible (v : VariableData.t) : bool :=
  (VariableData.fReadCount v =? 0) && negb (VariableData.fStorage v =? kOut_Storage).
End DeadCode.

(** The handles a whole tree holds on [tbl]. *)
Fixpoint tree_shares (tbl : loc) (n : IRNode.t) : nat :=
  let ptr_shares := λ (p : IRNode.unique_ptr IRNode.t),
    match p with
    | IRNode.null => 0%nat
    | IRNode.owns _ child => tree_shares tbl child
    end in
  (NodeData.shares tbl (IRNode.fData n)
   + sum_list_with ptr_shares (IRNode.fStatementChildren n)
   + sum_list_with ptr_shares (IRNode.fExpressionChildren n))%nat.

Arguments tree_shares tbl%_N n.

Definition ptr_shares (tbl : loc) (p : IRNode.unique_ptr IRNode.t) : nat :=
  match p with
  | IRNode.null => 0%nat
  | IRNode.owns _ child => tree_shares tbl child
  end.

Definition children_shares (tbl : loc) (v : list (IRNode.unique_ptr IRNode.t)) : nat :=
  sum_list_with (ptr_shares tbl) v.

(** Whether the handle [p] is a share of [t], as a count. *)
Definition holds (p : shared_ptr) (t : loc) : nat :=
  if decide (p = addr t) then 1%nat else 0%nat.

(** The one handle a variant may hold (null for the shapes without one). *)
Definition handle_of (nd : NodeData.t) : shared_ptr :=
  match nd with
  | NodeData.fBlock d => BlockData.fSymbolTable d
  | NodeData.fEnum d => EnumData.fSymbols d
  | NodeData.fForStatement d => ForStatementData.fSymbolTable d
  | _ => nullptr
  end.

(** [k] copies made one after the other from the same source. *)
Fixpoint copy_times (k : nat) (other : NodeData.t) (st : State)
  : list NodeData.t * State :=
  match k with
  | O => ([], st)
  | S k' =>
      let '(c, st1) := NodeData.copy other st in
      let '(cs, st2) := copy_times k' other st1 in
      (c :: cs, st2)
  end.

(** The events tearing a handle down, and those installing one. *)
Definition release_events (p : shared_ptr) (st : State) : list Event :=
  match p with
  | nullptr => []
  | addr t =>
      if decide (share_count st t ≤ 1)%nat
      then [EvRelease t; EvFree t]
      else [EvRelease t]
  end.

Definition acquire_events (p : shared_ptr) : list Event :=
  match p with
  | nullptr => []
  | addr t => [EvAcquire t]
  end.

(** The table a scope-introducing payload (Block or ForStatement) holds. *)
Definition scope_table (d : NodeData.t) : option loc :=
  match d with
  | NodeData.fBlock b =>
      match BlockData.fSymbolTable b with addr t => Some t | nullptr => None end
  | NodeData.fForStatement f =>
      match ForStatementData.fSymbolTable f with addr t => Some t | nullptr => None end
  | _ => None
  end.

(** The addresses of the children a vector owns. *)
Definition owned (v : list (IRNode.unique_ptr IRNode.t)) : list loc :=
  omap (λ p, match p with IRNode.null => None | IRNode.owns a _ => Some a end) v.

(** The events logged on the way from state [st] to a later state [st']. *)
Definition events_between (st st' : State) : list Event :=
  drop (length (log st)) (log st').

(** [st'] is a later state than [st]: the log has only grown. *)
Definition extends (st st' : State) : Prop :=
  ∃ tr, log st' = log st ++ tr.

(** On the way from [st] to [st'], [shares] handles on [tbl] were released
    and [tbl] was not freed. *)
Definition keeps_alive (tbl : loc) (shares : nat) (st st' : State) : Prop :=
  share_count st' tbl = (share_count st tbl - shares)%nat
  ∧ extends st st'
  ∧ EvFree tbl ∉ events_between st st'.

(** Destroying the tree [n] while somebody else still holds a share of
    [tbl] releases exactly the tree's shares and does not free [tbl]. *)
Definition destroy_keeps_alive (tbl : loc) (n : IRNode.t) : Prop :=
  ∀ st, (tree_shares tbl n < share_count st tbl)%nat →
        keeps_alive tbl (tree_shares tbl n) st (IRNode.destroy n st).

(** ** Sample nodes *)

Definition initial_state : State := {| use_count := ∅; log := [] |}.

(** An int literal 42 of the type at address 1, and a string literal. *)
Definition int_literal_node : IRNode.t :=
  IRNode.mk 10 3 (NodeData.of_IntLiteralData (IntLiteralData.mk (addr 1) 42)) [] [].

Definition string_node : IRNode.t :=
  IRNode.mk 20 5 (NodeData.of_String "text") [] [].

(** A node with one expression child, and one with one statement child. *)
Definition unary_node : IRNode.t :=
  IRNode.mk 30 7 (NodeData.of_Type (addr 1)) [IRNode.owns 100 int_literal_node] [].

Definition wrapper_node : IRNode.t :=
  IRNode.mk 40 9 (NodeData.of_String "wrapper") [] [IRNode.owns 101 string_node].

(** Scenario B: a real-scope block holding a share of the scope table at
    address 50, with three statement children: a nested block and a for
    statement that share the same table, and a string literal between
    them.  In [scenario_state] the table has exactly these three shares. *)
Definition nested_block_node : IRNode.t :=
  IRNode.mk 51 1 (NodeData.fBlock (BlockData.mk (addr 50) false)) [] [].

Definition for_node : IRNode.t :=
  IRNode.mk 52 2 (NodeData.fForStatement (ForStatementData.mk (addr 50))) [] [].

Definition scenario_children : list (IRNode.unique_ptr IRNode.t) :=
  [IRNode.owns 201 nested_block_node;
   IRNode.owns 202 string_node;
   IRNode.owns 203 for_node].

Definition block_node : IRNode.t :=
  IRNode.mk 50 1 (NodeData.fBlock (BlockData.mk (addr 50) true)) [] scenario_children.

Definition scenario_state : State :=
  {| use_count := {[ 50%N := 3%nat ]}; log := [] |}.

(** ** Auxiliary notions for the whole header *)

(** The accessor of the member of kind [k], its result wrapped back into
    a variant so that the fifteen accessors can be compared at once. *)
Definition access (k : NodeData.Kind) (n : IRNode.t) : outcome NodeData.t :=
  match k with
  | NodeData.kBlock => d ← IRNode.blockData n; Ok (NodeData.fBlock d)
  | NodeData.kBoolLiteral => d ← IRNode.boolLiteralData n; Ok (NodeData.fBoolLiteral d)
  | NodeData.kEnum => d ← IRNode.enumData n; Ok (NodeData.fEnum d)
  | NodeData.kExternalValue =>
      d ← IRNode.externalValueData n; Ok (NodeData.fExternalValue d)
  | NodeData.kField => d ← IRNode.fieldData n; Ok (NodeData.fField d)
  | NodeData.kFloatLiteral =>
      d ← IRNode.floatLiteralData n; Ok (NodeData.fFloatLiteral d)
  | NodeData.kForStatement =>
      d ← IRNode.forStatementData n; Ok (NodeData.fForStatement d)
  | NodeData.kFunctionCall =>
      d ← IRNode.functionCallData n; Ok (NodeData.fFunctionCall d)
  | NodeData.kIntLiteral => d ← IRNode.intLiteralData n; Ok (NodeData.fIntLiteral d)
  | NodeData.kString => d ← IRNode.stringData n; Ok (NodeData.fString d)
  | NodeData.kSymbol => d ← IRNode.symbolData n; Ok (NodeData.fSymbol d)
  | NodeData.kSymbolAlias =>
      d ← IRNode.symbolAliasData n; Ok (NodeData.fSymbolAlias d)
  | NodeData.kType => d ← IRNode.typeData n; Ok (NodeData.fType d)
  | NodeData.kTypeToken => d ← IRNode.typeTokenData n; Ok (NodeData.fTypeToken d)
  | NodeData.kVariable => d ← IRNode.variableData n; Ok (NodeData.fVariable d)
  end.

(** The [fType] member of a payload, for the shapes that have one. *)
Definition carried_type (nd : NodeData.t) : option ptr :=
  match nd with
  | NodeData.fBoolLiteral d => Some (BoolLiteralData.fType d)
  | NodeData.fExternalValue d => Some (ExternalValueData.fType d)
  | NodeData.fField d => Some (FieldData.fType d)
  | NodeData.fFloatLiteral d => Some (FloatLiteralData.fType d)
  | NodeData.fFunctionCall d => Some (FunctionCallData.fType d)
  | NodeData.fIntLiteral d => Some (IntLiteralData.fType d)
  | NodeData.fSymbol d => Some (SymbolData.fType d)
  | NodeData.fType d => Some d
  | NodeData.fTypeToken d => Some (TypeTokenData.fType d)
  | NodeData.fVariable d => Some (VariableData.fType d)
  | NodeData.fBlock _ | NodeData.fEnum _ | NodeData.fForStatement _
  | NodeData.fString _ | NodeData.fSymbolAlias _ => None
  end.

(** On the way from [st] to [st'], [shares] handles on [tbl] were
    released, and [tbl] was freed exactly if one of them was its last
    share. *)
Definition accounts (tbl : loc) (shares : nat) (st st' : State) : Prop :=
  share_count st' tbl = (share_count st tbl - shares)%nat
  ∧ extends st st'
  ∧ (EvFree tbl ∈ events_between st st'
     ↔ (1 ≤ shares)%nat ∧ (share_count st tbl ≤ shares)%nat).

(** What a teardown does whatever the use counts are: the handles
    released and the children destroyed, in order.  Whether a release
    frees its table depends on the store and is left out. *)
Fixpoint teardown_script (n : IRNode.t) : list Event :=
  let of_ptr := λ (p : IRNode.unique_ptr IRNode.t),
    match p with
    | IRNode.null => []
    | IRNode.owns a child => teardown_script child ++ [EvDestroyed a]
    end in
  flat_map of_ptr (IRNode.fStatementChildren n)
  ++ flat_map of_ptr (IRNode.fExpressionChildren n)
  ++ match handle_of (IRNode.fData n) with
     | nullptr => []
     | addr t => [EvRelease t]
     end.

Definition ptr_script (p : IRNode.unique_ptr IRNode.t) : list Event :=
  match p with
  | IRNode.null => []
  | IRNode.owns a child => teardown_script child ++ [EvDestroyed a]
  end.

Definition is_free (e : Event) : bool :=
  match e with EvFree _ => true | _ => false end.

Definition without_free (tr : list Event) : list Event :=
  filter (λ e, is_free e = false) tr.

(** How often a handle on [tbl] is released in a piece of the log. *)
Definition releases_of (tbl : loc) (tr : list Event) : nat :=
  length (filter (λ e, e = EvRelease tbl) tr).

(** A node holding an expression child and a statement child, each with a
    handle on the table at address 50, over a payload with a handle on
    the table at address 60. *)
Definition enum_node : IRNode.t :=
  IRNode.mk 60 4 (NodeData.fEnum (EnumData.mk "E"%string (addr 60) false))
    [IRNode.owns 301 for_node; IRNode.null]
    [IRNode.owns 302 nested_block_node].

Definition two_tables_state : State :=
  {| use_count := {[ 50%N := 2%nat; 60%N := 2%nat ]}; log := [] |}.

(** * Properties *)

Abbreviation children := (list (IRNode.unique_ptr IRNode.t)).

(** ** Type resolution *)

(** C2: for each of the ten type-bearing shapes, a node built with that
    shape and carrying the type reference [T] answers [type()] with exactly
    [T]; for each of the five other shapes (Block, Enum, ForStatement,
    String, SymbolAlias) [type()] faults, so no reference at all is
    returned. *)
Theorem C2_type_of_constructed_node :
  ∀ (off k : Z) (es ss : children) (T : loc) (st : State),
    let node := λ d, IRNode.mk off k d es ss in
    (∀ v, IRNode.type (node (NodeData.of_BoolLiteralData
            (BoolLiteralData.mk (addr T) v))) = Ok T)
    ∧ (∀ v, IRNode.type (node (NodeData.of_ExternalValueData
            (ExternalValueData.mk (addr T) v))) = Ok T)
    ∧ (∀ name owner i, IRNode.type (node (NodeData.of_FieldData
            (FieldData.mk name (addr T) owner i))) = Ok T)
    ∧ (∀ v, IRNode.type (node (NodeData.of_FloatLiteralData
            (FloatLiteralData.mk (addr T) v))) = Ok T)
    ∧ (∀ f, IRNode.type (node (NodeData.of_FunctionCallData
            (FunctionCallData.mk (addr T) f))) = Ok T)
    ∧ (∀ v, IRNode.type (node (NodeData.of_IntLiteralData
            (IntLiteralData.mk (addr T) v))) = Ok T)
    ∧ (∀ name, IRNode.type (node (NodeData.of_SymbolData
            (SymbolData.mk name (addr T)))) = Ok T)
    ∧ IRNode.type (node (NodeData.of_Type (addr T))) = Ok T
    ∧ (∀ tok, IRNode.type (node (NodeData.of_TypeTokenData
            (TypeTokenData.mk (addr T) tok))) = Ok T)
    ∧ (∀ name init h rc wc sto b, IRNode.type (node (NodeData.of_VariableData
            (VariableData.mk name (addr T) init h rc wc sto b))) = Ok T)
    ∧ (∀ d, IRNode.type (node (NodeData.of_BlockData d st).1) = Fault)
    ∧ (∀ d, IRNode.type (node (NodeData.of_EnumData d st).1) = Fault)
    ∧ (∀ d, IRNode.type (node (NodeData.of_ForStatementData d st).1) = Fault)
    ∧ (∀ d, IRNode.type (node (NodeData.of_String d)) = Fault)
    ∧ (∀ d, IRNode.type (node (NodeData.of_SymbolAliasData d)) = Fault).
Proof.
  intros off k es ss T st node.
  repeat split; try done.
Qed.

(** ** The store of use counts *)

Lemma share_count_acquire p st t :
  share_count (shared_ptr_acquire p st) t = (share_count st t + holds p t)%nat.
Proof.
  unfold holds. destruct p as [|u]; simpl.
  - lia.
  - unfold share_count at 1; simpl.
    destruct (decide (u = t)) as [->|Hne].
    + rewrite lookup_insert_eq, decide_True by done. simpl. lia.
    + rewrite lookup_insert_ne, decide_False by congruence.
      unfold share_count. lia.
Qed.

Lemma share_count_release p st t :
  share_count (shared_ptr_release p st) t = (share_count st t - holds p t)%nat.
Proof.
  unfold holds. destruct p as [|u]; simpl.
  - lia.
  - destruct (decide (u = t)) as [->|Hne].
    + rewrite decide_True by done.
      destruct (share_count st t) as [|[|c]] eqn:Hc;
        unfold share_count; simpl.
      * by rewrite lookup_delete_eq.
      * by rewrite lookup_delete_eq.
      * rewrite lookup_insert_eq. simpl. lia.
    + rewrite decide_False by congruence.
      destruct (share_count st u) as [|[|c]];
        unfold share_count; simpl;
        rewrite ?lookup_delete_ne, ?lookup_insert_ne by done; lia.
Qed.

Lemma log_acquire p st :
  log (shared_ptr_acquire p st) = log st ++ acquire_events p.
Proof. destruct p; simpl; [by rewrite app_nil_r | done]. Qed.

Lemma log_release p st :
  log (shared_ptr_release p st) = log st ++ release_events p st.
Proof.
  destruct p as [|t]; simpl; [by rewrite app_nil_r |].
  by destruct (share_count st t) as [|[|c]].
Qed.

Lemma assign_onto_null src st :
  shared_ptr_assign nullptr src st = (src, shared_ptr_acquire src st).
Proof. done. Qed.

(** Releasing a handle frees its table only when it was the last share,
    and never frees another table. *)
Lemma release_events_free p st t :
  EvFree t ∈ release_events p st → p = addr t ∧ (share_count st t ≤ 1)%nat.
Proof.
  destruct p as [|u]; simpl; [by rewrite elem_of_nil |].
  case_decide.
  - rewrite elem_of_cons, list_elem_of_singleton.
    intros [?|?]; by simplify_eq.
  - rewrite list_elem_of_singleton. done.
Qed.

Lemma release_events_last t st :
  (share_count st t ≤ 1)%nat → EvFree t ∈ release_events (addr t) st.
Proof.
  intros. simpl. rewrite decide_True by done.
  rewrite elem_of_cons, list_elem_of_singleton. by right.
Qed.

Lemma release_events_not_destroyed p st a :
  EvDestroyed a ∉ release_events p st.
Proof.
  destruct p as [|u]; simpl; [by intros ?%elem_of_nil |].
  case_decide; intros Hin;
    repeat (apply elem_of_cons in Hin as [Hin|Hin]; [done |]);
    by apply elem_of_nil in Hin.
Qed.

Lemma acquire_events_only p e :
  e ∈ acquire_events p → ∃ t, e = EvAcquire t ∧ p = addr t.
Proof.
  destruct p; simpl; [by rewrite elem_of_nil |].
  rewrite list_elem_of_singleton. eauto.
Qed.

(** ** The payload variant: copy and assignment *)

Lemma shares_handle_of tbl nd :
  NodeData.shares tbl nd = holds (handle_of nd) tbl.
Proof.
  unfold NodeData.shares, holds.
  destruct nd; simpl; try done;
    rewrite filter_cons, filter_nil; by repeat case_decide.
Qed.

Lemma cleanup_release nd st :
  NodeData.cleanup nd st = shared_ptr_release (handle_of nd) st.
Proof. by destruct nd. Qed.

Lemma assign_value this other st :
  (NodeData.assign this other st).1 = other.
Proof. destruct other as [[]| |[]| | | |[]| | | | | | | |]; done. Qed.

Lemma assign_state this other st :
  (NodeData.assign this other st).2 =
  shared_ptr_acquire (handle_of other) (NodeData.cleanup this st).
Proof. destruct other as [[]| |[]| | | |[]| | | | | | | |]; done. Qed.

Lemma copy_value other st : (NodeData.copy other st).1 = other.
Proof. apply assign_value. Qed.

Lemma copy_state other st :
  (NodeData.copy other st).2 = shared_ptr_acquire (handle_of other) st.
Proof. unfold NodeData.copy. by rewrite assign_state. Qed.

Lemma copy_times_count k other st t :
  share_count (copy_times k other st).2 t
  = (share_count st t + k * NodeData.shares t other)%nat.
Proof.
  revert st. induction k as [|k IH]; intros st; simpl; [lia |].
  destruct (NodeData.copy other st) as [c st1] eqn:Hc.
  destruct (copy_times k other st1) as [cs st2] eqn:Hcs. simpl.
  pose proof (IH st1) as IH1. rewrite Hcs in IH1. simpl in IH1.
  pose proof (copy_state other st) as Hst. rewrite Hc in Hst. simpl in Hst.
  rewrite IH1, Hst, share_count_acquire, shares_handle_of. lia.
Qed.

Lemma copy_times_values k other st :
  (copy_times k other st).1 = replicate k other.
Proof.
  revert st. induction k as [|k IH]; intros st; simpl; [done |].
  destruct (NodeData.copy other st) as [c st1] eqn:Hc.
  destruct (copy_times k other st1) as [cs st2] eqn:Hcs. simpl.
  pose proof (IH st1) as IH1. rewrite Hcs in IH1. simpl in IH1.
  pose proof (copy_value other st) as Hv. rewrite Hc in Hv. simpl in Hv.
  by rewrite IH1, Hv.
Qed.

(** C5: a copy of a payload variant equals its source field by field
    (same shape, same values, same handle, same weak references, so
    source and copy point at the same external records); nothing is
    torn down or freed by the copy; the use count of the table the
    source holds grows by one for each copy made, and the use count of
    every other table is unchanged. *)
Theorem C5_copy_of_payload_variant :
  ∀ (other : NodeData.t) (st : State),
    let res := NodeData.copy other st in
    res.1 = other
    ∧ NodeData.weak_refs res.1 = NodeData.weak_refs other
    ∧ NodeData.handles res.1 = NodeData.handles other
    ∧ log res.2 = log st ++ acquire_events (handle_of other)
    ∧ (∀ t, handle_of other = addr t →
            share_count res.2 t = S (share_count st t))
    ∧ (∀ t, handle_of other ≠ addr t →
            share_count res.2 t = share_count st t)
    ∧ (∀ k t, handle_of other = addr t →
            (copy_times k other st).1 = replicate k other
            ∧ share_count (copy_times k other st).2 t
              = (share_count st t + k)%nat).
Proof.
  intros other st res. subst res.
  rewrite copy_value, copy_state, log_acquire.
  repeat split; try done.
  - intros t Ht. rewrite share_count_acquire. unfold holds.
    rewrite decide_True by done. lia.
  - intros t Ht. rewrite share_count_acquire. unfold holds.
    rewrite decide_False by done. lia.
  - apply copy_times_values.
  - rewrite copy_times_count, shares_handle_of. unfold holds.
    rewrite decide_True by done. lia.
Qed.

(** Assigning from another variant first tears the previously active
    shape down completely (its handle is released, freeing the table if
    that was the last share), and only then installs the new shape: every
    teardown event precedes every install event in the log, the use counts
    after teardown no longer include the old handle, and the variant ends
    up holding exactly the shape and values of the source. *)
Theorem assignment_from_another_variant :
  ∀ (this other : NodeData.t) (st : State),
    let torn := NodeData.cleanup this st in
    let res := NodeData.assign this other st in
    res.1 = other
    ∧ NodeData.fKind res.1 = NodeData.fKind other
    ∧ log torn = log st ++ release_events (handle_of this) st
    ∧ log res.2 = log torn ++ acquire_events (handle_of other)
    ∧ (∀ t, share_count torn t = (share_count st t - NodeData.shares t this)%nat)
    ∧ (∀ t, share_count res.2 t
            = (share_count torn t + NodeData.shares t other)%nat).
Proof.
  intros this other st torn res. subst torn res.
  rewrite assign_value, assign_state, log_acquire, cleanup_release, log_release.
  repeat split; try done.
  - intros t. by rewrite share_count_release, shares_handle_of.
  - intros t. by rewrite share_count_acquire, shares_handle_of.
Qed.

(** C10: a Type-shaped node can be built from the constructor's default
    argument, the null pointer; [typeData()] then returns that null
    pointer and [type()] dereferences it.  For a Type-shaped node
    [type()] returns a type exactly when the stored pointer is not null. *)
Theorem C10_type_of_null_type_reference :
  ∀ (off k : Z) (es ss : children),
    let n := IRNode.mk off k (NodeData.of_Type IRNode.default_Type_argument) es ss in
    IRNode.shape n = NodeData.kType
    ∧ IRNode.typeData n = Ok nullptr
    ∧ IRNode.type n = NullDeref
    ∧ (∀ p : ptr,
         (∃ T, IRNode.type (IRNode.mk off k (NodeData.of_Type p) es ss) = Ok T)
         ↔ p ≠ nullptr).
Proof.
  intros off k es ss n. repeat split; try done.
  - intros [T HT] ->. done.
  - intros Hp. destruct p as [|T]; [done |]. by exists T.
Qed.

(** ** Child storage *)

Lemma wrap_le bits z : 0 < bits → 0 ≤ z → wrap bits z ≤ z.
Proof.
  intros Hb Hz. unfold wrap.
  assert (0 < 2 ^ (bits - 1)) by (apply Z.pow_pos_nonneg; lia).
  assert (2 ^ bits = 2 * 2 ^ (bits - 1)) as ->.
  { rewrite <- Z.pow_succ_r by lia. f_equal. lia. }
  pose proof (Z.mod_le (z + 2 ^ (bits - 1)) (2 * 2 ^ (bits - 1))). lia.
Qed.

Lemma wrap_id bits z :
  0 < bits → - 2 ^ (bits - 1) ≤ z < 2 ^ (bits - 1) → wrap bits z = z.
Proof.
  intros Hb Hz. unfold wrap.
  assert (2 ^ bits = 2 * 2 ^ (bits - 1)) as ->.
  { rewrite <- Z.pow_succ_r by lia. f_equal. lia. }
  rewrite Z.mod_small by lia. lia.
Qed.

Lemma in_bounds_spec {A} (index : Z) (v : list A) :
  IRNode.in_bounds index v = true ↔ 0 ≤ index < IRNode.int_size v.
Proof. unfold IRNode.in_bounds. rewrite andb_true_iff, Z.leb_le, Z.ltb_lt. done. Qed.

Lemma out_of_bounds {A} (index : Z) (v : list A) :
  ¬ (0 ≤ index < IRNode.int_size v) → IRNode.in_bounds index v = false.
Proof. rewrite <- in_bounds_spec. apply not_true_is_false. Qed.

Lemma in_bounds_lookup (index : Z) (v : children) :
  0 ≤ index < IRNode.int_size v →
  ∃ p, v !! Z.to_nat index = Some p ∧ IRNode.at_index index v = p.
Proof.
  intros [H0 Hlt]. unfold IRNode.int_size, to_int in Hlt.
  pose proof (wrap_le 32 (Z.of_nat (length v)) ltac:(lia) ltac:(lia)) as Hle.
  destruct (lookup_lt_is_Some_2 v (Z.to_nat index)) as [p Hp]; [lia |].
  exists p. split; [done |]. unfold IRNode.at_index. by rewrite Hp.
Qed.

(** C7: for an index inside [0, expressionChildCount()) the slot exists,
    [expressionPointer] returns the pointer stored at that position and
    [expressionChild] returns the very child (same address, same node)
    that the pointer at that position owns; for every index outside the
    range both fault.  The same holds for the statement children, and
    neither accessor depends on the other sequence. *)
Theorem C7_indexed_children :
  ∀ (off k : Z) (d : NodeData.t) (es ss : children) (i : Z),
    let n := IRNode.mk off k d es ss in
    (0 ≤ i < IRNode.expressionChildCount n →
       ∃ p, es !! Z.to_nat i = Some p
            ∧ IRNode.expressionPointer n i = Ok p
            ∧ IRNode.expressionChild n i = IRNode.deref_unique p
            ∧ ∀ a child, p = IRNode.owns a child →
                IRNode.expressionChild n i = Ok (a, child))
    ∧ (¬ (0 ≤ i < IRNode.expressionChildCount n) →
       IRNode.expressionChild n i = Fault ∧ IRNode.expressionPointer n i = Fault)
    ∧ (0 ≤ i < IRNode.statementChildCount n →
       ∃ p, ss !! Z.to_nat i = Some p
            ∧ IRNode.statementPointer n i = Ok p
            ∧ IRNode.statementChild n i = IRNode.deref_unique p
            ∧ ∀ a child, p = IRNode.owns a child →
                IRNode.statementChild n i = Ok (a, child))
    ∧ (¬ (0 ≤ i < IRNode.statementChildCount n) →
       IRNode.statementChild n i = Fault ∧ IRNode.statementPointer n i = Fault)
    ∧ (∀ es', IRNode.statementChild (IRNode.mk off k d es' ss) i
              = IRNode.statementChild n i)
    ∧ (∀ ss', IRNode.expressionChild (IRNode.mk off k d es ss') i
              = IRNode.expressionChild n i).
Proof.
  intros off k d es ss i n. subst n.
  unfold IRNode.expressionChildCount, IRNode.statementChildCount,
    IRNode.expressionChild, IRNode.expressionPointer,
    IRNode.statementChild, IRNode.statementPointer. simpl.
  split_and!; try done.
  - intros Hi. destruct (in_bounds_lookup i es Hi) as (p & Hp & Hat).
    apply in_bounds_spec in Hi. rewrite Hi, Hat. simpl.
    exists p. split_and!; try done. by intros a child ->.
  - intros Hi%out_of_bounds. by rewrite Hi.
  - intros Hi. destruct (in_bounds_lookup i ss Hi) as (p & Hp & Hat).
    apply in_bounds_spec in Hi. rewrite Hi, Hat. simpl.
    exists p. split_and!; try done. by intros a child ->.
  - intros Hi%out_of_bounds. by rewrite Hi.
Qed.

(** ** Copy assignment of a node *)

Lemma assign_no_children this other st :
  IRNode.fExpressionChildren other = [] →
  IRNode.assign this other st
  = Ok (IRNode.mk (IRNode.fOffset other) (IRNode.fKind other) (IRNode.fData other)
          (IRNode.fExpressionChildren this) (IRNode.fStatementChildren this),
        (NodeData.assign (IRNode.fData this) (IRNode.fData other) st).2).
Proof.
  intros He. unfold IRNode.assign. rewrite He. simpl.
  pose proof (assign_value (IRNode.fData this) (IRNode.fData other) st) as Hv.
  destruct (NodeData.assign _ _ st) as [data st1]. simpl in *. by subst.
Qed.

Lemma assign_with_children this other st :
  IRNode.fExpressionChildren other ≠ [] → IRNode.assign this other st = Fault.
Proof.
  intros He. unfold IRNode.assign.
  by destruct (IRNode.fExpressionChildren other).
Qed.

(** Copy-assigning from another node without expression children returns
    normally, and the destination then has the kind, offset and payload
    of the source; copy-assigning from a source with at least one
    expression child faults. *)
Theorem copy_assignment_from_another_node :
  ∀ (this other : IRNode.t) (st : State),
    (IRNode.fExpressionChildren other = [] →
       ∃ n' st', IRNode.assign this other st = Ok (n', st')
                 ∧ IRNode.fKind n' = IRNode.fKind other
                 ∧ IRNode.fOffset n' = IRNode.fOffset other
                 ∧ IRNode.fData n' = IRNode.fData other)
    ∧ (IRNode.fExpressionChildren other ≠ [] →
       IRNode.assign this other st = Fault).
Proof.
  intros this other st. split.
  - intros He. eexists _, _. split; [by apply assign_no_children |]. done.
  - apply assign_with_children.
Qed.

(** C9: when a copy assignment returns, the destination is the node with
    the kind, offset and payload of the source and with its own two child
    sequences exactly as they were; nothing of the source's statement
    children is taken over, and no child is torn down. *)
Theorem C9_copy_assignment_frame :
  ∀ (this other n' : IRNode.t) (st st' : State),
    IRNode.assign this other st = Ok (n', st') →
    n' = IRNode.mk (IRNode.fOffset other) (IRNode.fKind other) (IRNode.fData other)
           (IRNode.fExpressionChildren this) (IRNode.fStatementChildren this)
    ∧ IRNode.fExpressionChildren n' = IRNode.fExpressionChildren this
    ∧ IRNode.fStatementChildren n' = IRNode.fStatementChildren this
    ∧ (∀ a, EvDestroyed a ∈ log st' → EvDestroyed a ∈ log st).
Proof.
  intros this other n' st st' Hassign.
  destruct (decide (IRNode.fExpressionChildren other = [])) as [He|He].
  - rewrite assign_no_children in Hassign by done.
    injection Hassign as <- <-. split_and!; try done.
    intros a. rewrite assign_state, log_acquire, cleanup_release, log_release.
    rewrite !elem_of_app. intros [[Hin|Hin]|Hin]; [done | |].
    + by apply release_events_not_destroyed in Hin.
    + apply acquire_events_only in Hin as (t & ? & _). done.
  - by rewrite assign_with_children in Hassign.
Qed.

(** ** The payload shape over the life of a node *)

(** C4, as the code has it: an operation that returns leaves the active
    payload shape as it was, except copy assignment, after which the shape
    is the one of the source.  Writing a counter of a Variable payload
    changes the counter and nothing else. *)
Theorem C4_shape_changes_only_by_assignment :
  ∀ (op : IRNode.operation) (n n' : IRNode.t) (st st' : State),
    IRNode.perform op n st = Ok (n', st') →
    match op with
    | IRNode.OpAssign other => IRNode.shape n' = IRNode.shape other
    | IRNode.OpSetReadCount v =>
        IRNode.shape n' = IRNode.shape n
        ∧ ∃ d, IRNode.variableData n = Ok d
               ∧ IRNode.variableData n' = Ok (VariableData.set_fReadCount v d)
    | IRNode.OpSetWriteCount v =>
        IRNode.shape n' = IRNode.shape n
        ∧ ∃ d, IRNode.variableData n = Ok d
               ∧ IRNode.variableData n' = Ok (VariableData.set_fWriteCount v d)
    | _ => IRNode.shape n' = IRNode.shape n
    end.
Proof.
  intros op n n' st st' Hop. destruct n as [off k d es ss].
  destruct op; simpl in Hop.
  - destruct (decide (IRNode.fExpressionChildren other = [])) as [He|He].
    + rewrite assign_no_children in Hop by done. by injection Hop as <- <-.
    + by rewrite assign_with_children in Hop.
  - destruct (IRNode.type _); simpl in Hop; by simplify_eq.
  - destruct (IRNode.expressionChild _ _); simpl in Hop; by simplify_eq.
  - destruct (IRNode.statementChild _ _); simpl in Hop; by simplify_eq.
  - by simplify_eq.
  - by simplify_eq.
  - unfold IRNode.set_blockData in Hop.
    destruct d; simpl in Hop; by simplify_eq.
  - unfold IRNode.set_symbolData in Hop.
    destruct d; simpl in Hop; by simplify_eq.
  - unfold IRNode.set_variableData in Hop.
    destruct d; simpl in Hop; by simplify_eq.
  - unfold IRNode.set_fReadCount in Hop.
    destruct d; simpl in Hop; simplify_eq. split; [done |]. by eexists.
  - unfold IRNode.set_fWriteCount in Hop.
    destruct d; simpl in Hop; simplify_eq. split; [done |]. by eexists.
  - unfold IRNode.set_expressionPointer in Hop.
    destruct (IRNode.expressionPointer _ _); simpl in Hop; by simplify_eq.
  - unfold IRNode.set_statementPointer in Hop.
    destruct (IRNode.statementPointer _ _); simpl in Hop; by simplify_eq.
Qed.

(** C4 as stated fails: copy-assigning a string literal node to an int
    literal node returns and leaves the destination with the String
    shape. *)
Lemma C4_counterexample :
  ∃ n' st',
    IRNode.perform (IRNode.OpAssign string_node) int_literal_node initial_state
    = Ok (n', st')
    ∧ IRNode.shape int_literal_node = NodeData.kIntLiteral
    ∧ IRNode.shape n' = NodeData.kString.
Proof. by eexists _, _. Qed.

(** ** Scenario C: the dead-code eligibility predicate *)

Lemma to_int16_small z : -32768 ≤ z < 32768 → to_int16 z = z.
Proof. intros Hz. unfold to_int16. apply wrap_id; [lia |]. simpl. lia. Qed.

(** C8, as the formula evaluates: for the variable of scenario C (name x,
    local storage, no initial value, read count 0, write count 1) the
    predicate read-count == 0 AND storage-class != out is true while the
    write count read from the node is 1, and it is true once the write
    count has been set to 0. *)
Theorem C8_dead_code_predicate_in_scenario_C :
  ∀ (kLocal_Storage kOut_Storage off k : Z) (es ss : children)
    (ty : ptr) (h : ModifiersPool_Handle) (builtin : bool),
    kLocal_Storage ≠ kOut_Storage →
    let n := IRNode.mk off k
               (NodeData.of_VariableData
                  (VariableData.mk "x"%string ty nullptr h 0 1 kLocal_Storage builtin))
               es ss in
    (d ← IRNode.variableData n;
     Ok (VariableData.fWriteCount d, dead_code_eligible kOut_Storage d))
    = Ok (1, true)
    ∧ (n' ← IRNode.set_fWriteCount n 0;
       d ← IRNode.variableData n';
       Ok (VariableData.fWriteCount d, dead_code_eligible kOut_Storage d))
      = Ok (0, true).
Proof.
  intros kLocal kOut off k es ss ty h builtin Hne n. subst n.
  assert ((kLocal =? kOut) = false) as Hcmp. { by apply Z.eqb_neq. }
  unfold IRNode.set_fWriteCount, dead_code_eligible. simpl.
  rewrite Hcmp. done.
Qed.

(** C8 as stated fails: with storage codes 0 for local and 1 for out, the
    variable of scenario C has a positive write count and the predicate is
    already true. *)
Lemma C8_counterexample :
  let v := VariableData.mk "x"%string (addr 1) nullptr 0 0 1 0 false in
  0 < VariableData.fWriteCount v
  ∧ IRNode.variableData (IRNode.mk 0 0 (NodeData.of_VariableData v) [] []) = Ok v
  ∧ dead_code_eligible 1 v ≠ false.
Proof. done. Qed.

(** The witness of C8 at the same storage codes. *)
Lemma C8_witness :
  (0 : Z) ≠ 1
  ∧ (d ← IRNode.variableData
           (IRNode.mk 0 0
              (NodeData.of_VariableData
                 (VariableData.mk "x"%string (addr 1) nullptr 0 0 1 0 false)) [] []);
     Ok (VariableData.fWriteCount d, dead_code_eligible 1 d))
    = Ok (1, true).
Proof.
  split; [lia |].
  apply (C8_dead_code_predicate_in_scenario_C
           0 1 0 0 [] [] (addr 1) 0 false); lia.
Defined.

(** ** Destruction *)

Lemma destroy_unfold off k d es ss st :
  IRNode.destroy (IRNode.mk off k d es ss) st
  = NodeData.destroy d (IRNode.destroy_children es (IRNode.destroy_children ss st)).
Proof. reflexivity. Qed.

Lemma destroy_children_cons p v st :
  IRNode.destroy_children (p :: v) st
  = IRNode.destroy_children v (IRNode.destroy_ptr st p).
Proof. reflexivity. Qed.

Lemma tree_shares_unfold tbl off k d es ss :
  tree_shares tbl (IRNode.mk off k d es ss)
  = (NodeData.shares tbl d + children_shares tbl ss + children_shares tbl es)%nat.
Proof. reflexivity. Qed.

Lemma events_between_app st st' tr :
  log st' = log st ++ tr → events_between st st' = tr.
Proof. unfold events_between. intros ->. by rewrite drop_app_length. Qed.

Lemma share_count_emit e st t : share_count (emit e st) t = share_count st t.
Proof. done. Qed.

Lemma extends_refl st : extends st st.
Proof. exists []. by rewrite app_nil_r. Qed.

Lemma extends_trans st1 st2 st3 :
  extends st1 st2 → extends st2 st3 → extends st1 st3.
Proof.
  intros [tr1 H1] [tr2 H2]. exists (tr1 ++ tr2).
  by rewrite H2, H1, app_assoc.
Qed.

Lemma extends_events st st' : extends st st' → log st' = log st ++ events_between st st'.
Proof. intros [tr Htr]. by rewrite (events_between_app _ _ _ Htr). Qed.

Lemma extends_emit e st : extends st (emit e st).
Proof. by exists [e]. Qed.

Lemma extends_release p st : extends st (shared_ptr_release p st).
Proof. eexists. apply log_release. Qed.

Lemma destroy_children_extends v :
  Forall (IRNode.child_all (λ n, ∀ st, extends st (IRNode.destroy n st))) v →
  ∀ st, extends st (IRNode.destroy_children v st).
Proof.
  induction 1 as [|p v Hp _ IH]; intros st; [apply extends_refl |].
  rewrite destroy_children_cons.
  eapply extends_trans; [| apply IH].
  destruct p as [|a child]; simpl; [apply extends_refl |].
  eapply extends_trans; [apply Hp | apply extends_emit].
Qed.

Lemma destroy_extends n st : extends st (IRNode.destroy n st).
Proof.
  revert st. induction n as [off k d es ss IHes IHss] using IRNode.tree_ind.
  intros st. rewrite destroy_unfold.
  apply (extends_trans _ (IRNode.destroy_children ss st));
    [by apply destroy_children_extends |].
  apply (extends_trans _ (IRNode.destroy_children es (IRNode.destroy_children ss st)));
    [by apply destroy_children_extends |].
  unfold NodeData.destroy. rewrite cleanup_release. apply extends_release.
Qed.

Lemma destroy_ptr_extends p st : extends st (IRNode.destroy_ptr st p).
Proof.
  destruct p as [|a child]; simpl; [apply extends_refl |].
  eapply extends_trans; [apply destroy_extends | apply extends_emit].
Qed.

Lemma destroy_children_extends' v st : extends st (IRNode.destroy_children v st).
Proof.
  apply destroy_children_extends, Forall_forall.
  intros [|a child] _; simpl; [done |]. intros st'. apply destroy_extends.
Qed.

Lemma events_between_trans st1 st2 st3 :
  extends st1 st2 → extends st2 st3 →
  events_between st1 st3 = events_between st1 st2 ++ events_between st2 st3.
Proof.
  intros H12 H23. apply events_between_app.
  rewrite (extends_events _ _ H23), (extends_events _ _ H12). by rewrite app_assoc.
Qed.

Lemma destroy_children_marks v st a :
  a ∈ owned v → EvDestroyed a ∈ events_between st (IRNode.destroy_children v st).
Proof.
  revert st. induction v as [|p v IH]; intros st; [by intros ?%elem_of_nil |].
  rewrite destroy_children_cons.
  rewrite (events_between_trans st (IRNode.destroy_ptr st p))
    by auto using destroy_ptr_extends, destroy_children_extends'.
  rewrite elem_of_app. unfold owned. simpl.
  destruct p as [|b child]; simpl.
  - intros Hin. right. by apply IH.
  - rewrite elem_of_cons. intros [->|Hin]; [left | right; by apply IH].
    destruct (destroy_extends child st) as [tr Htr].
    erewrite events_between_app; last first.
    { unfold emit. simpl. rewrite Htr, <- app_assoc. done. }
    rewrite elem_of_app, list_elem_of_singleton. by right.
Qed.

(** *** Accounting of the shares of one table *)

Section accounting.
Variable tbl : loc.

Lemma keeps_alive_refl st : keeps_alive tbl 0 st st.
Proof.
  split_and!; [lia | apply extends_refl |].
  unfold events_between. rewrite drop_all. by intros ?%elem_of_nil.
Qed.

Lemma keeps_alive_trans a b st1 st2 st3 :
  keeps_alive tbl a st1 st2 → keeps_alive tbl b st2 st3 →
  keeps_alive tbl (a + b) st1 st3.
Proof.
  intros (Hc1 & He1 & Hf1) (Hc2 & He2 & Hf2). split_and!.
  - rewrite Hc2, Hc1. lia.
  - by eapply extends_trans.
  - rewrite (events_between_trans st1 st2 st3) by done.
    rewrite not_elem_of_app. done.
Qed.

Lemma keeps_alive_emit a st : keeps_alive tbl 0 st (emit (EvDestroyed a) st).
Proof.
  split_and!; [rewrite share_count_emit; lia | apply extends_emit |].
  erewrite events_between_app by done.
  rewrite list_elem_of_singleton. done.
Qed.

Lemma keeps_alive_release p st :
  (holds p tbl < share_count st tbl)%nat →
  keeps_alive tbl (holds p tbl) st (shared_ptr_release p st).
Proof.
  intros Hlt. split_and!.
  - apply share_count_release.
  - apply extends_release.
  - rewrite (events_between_app _ _ _ (log_release p st)).
    intros [-> Hle]%release_events_free.
    unfold holds in Hlt. rewrite decide_True in Hlt by done. lia.
Qed.

Lemma keeps_alive_eq a b st st' :
  a = b → keeps_alive tbl a st st' → keeps_alive tbl b st st'.
Proof. by intros ->. Qed.

Lemma destroy_children_keeps_alive v :
  Forall (IRNode.child_all (destroy_keeps_alive tbl)) v →
  ∀ st, (children_shares tbl v < share_count st tbl)%nat →
        keeps_alive tbl (children_shares tbl v) st (IRNode.destroy_children v st).
Proof.
  induction 1 as [|p v Hp _ IH]; intros st Hlt; [apply keeps_alive_refl |].
  rewrite destroy_children_cons.
  change (children_shares tbl (p :: v))
    with (ptr_shares tbl p + children_shares tbl v)%nat in *.
  assert (keeps_alive tbl (ptr_shares tbl p) st (IRNode.destroy_ptr st p)) as Hfirst.
  { destruct p as [|a child]; simpl; [apply keeps_alive_refl |].
    apply (keeps_alive_eq (tree_shares tbl child + 0)); [lia |].
    eapply keeps_alive_trans; [| apply keeps_alive_emit].
    apply Hp. simpl in Hlt. lia. }
  eapply keeps_alive_trans; [exact Hfirst |].
  apply IH. destruct Hfirst as (-> & _). lia.
Qed.

Lemma destroy_tree_keeps_alive n : destroy_keeps_alive tbl n.
Proof.
  induction n as [off k d es ss IHes IHss] using IRNode.tree_ind.
  intros st. rewrite tree_shares_unfold, destroy_unfold. intros Hlt.
  pose proof (destroy_children_keeps_alive ss IHss st ltac:(lia)) as Hss.
  pose proof (destroy_children_keeps_alive es IHes
                (IRNode.destroy_children ss st)) as Hes.
  destruct Hss as (Hcs & Hss'). pose proof (conj Hcs Hss') as Hss.
  specialize (Hes ltac:(lia)).
  destruct Hes as (Hce & Hes'). pose proof (conj Hce Hes') as Hes.
  apply (keeps_alive_eq
           (children_shares tbl ss + (children_shares tbl es + NodeData.shares tbl d)));
    [lia |].
  eapply keeps_alive_trans; [exact Hss |].
  eapply keeps_alive_trans; [exact Hes |].
  unfold NodeData.destroy. rewrite cleanup_release, shares_handle_of.
  apply keeps_alive_release. rewrite <- shares_handle_of. lia.
Qed.

Lemma destroy_children_alive v st :
  (children_shares tbl v < share_count st tbl)%nat →
  keeps_alive tbl (children_shares tbl v) st (IRNode.destroy_children v st).
Proof.
  apply destroy_children_keeps_alive, Forall_forall.
  intros [|a child] _; simpl; [done |]. apply destroy_tree_keeps_alive.
Qed.
End accounting.

Lemma scope_table_handle d tbl :
  scope_table d = Some tbl → handle_of d = addr tbl ∧ NodeData.shares tbl d = 1%nat.
Proof.
  intros Hd. assert (handle_of d = addr tbl) as Hh.
  { destruct d as [[[] ?]| | | | | |[[]]| | | | | | | |]; by simplify_eq/=. }
  split; [done |]. rewrite shares_handle_of, Hh. unfold holds.
  by rewrite decide_True.
Qed.

(** C1: destroying a node whose Block or ForStatement payload holds a
    share of the scope table [tbl] runs in three stages: the statement
    children, then the expression children, then the payload.  Every
    statement child the node owns has finished destructing within the
    first stage; [tbl] is not freed in the first two stages and still has
    a positive use count after each of them; the payload stage destroys no
    child.  When the node's tree holds all the shares of [tbl], the use
    count reaches zero in the payload stage.  The use count is assumed to
    cover every handle of the tree, as it does for live handles. *)
Theorem C1_statement_children_destroyed_before_payload :
  ∀ (off k : Z) (d : NodeData.t) (es ss : children) (tbl : loc) (st : State),
    scope_table d = Some tbl →
    (tree_shares tbl (IRNode.mk off k d es ss) ≤ share_count st tbl)%nat →
    let st_s := IRNode.destroy_children ss st in
    let st_e := IRNode.destroy_children es st_s in
    let st_p := IRNode.destroy (IRNode.mk off k d es ss) st in
    st_p = NodeData.destroy d st_e
    ∧ log st_p = log st ++ events_between st st_s
                        ++ events_between st_s st_e
                        ++ events_between st_e st_p
    ∧ (∀ a, a ∈ owned ss → EvDestroyed a ∈ events_between st st_s)
    ∧ (EvFree tbl ∉ events_between st st_s)
    ∧ (EvFree tbl ∉ events_between st_s st_e)
    ∧ (1 ≤ share_count st_s tbl)%nat
    ∧ (1 ≤ share_count st_e tbl)%nat
    ∧ (∀ a, EvDestroyed a ∉ events_between st_e st_p)
    ∧ (share_count st tbl = tree_shares tbl (IRNode.mk off k d es ss) →
       EvFree tbl ∈ events_between st_e st_p ∧ share_count st_p tbl = 0%nat).
Proof.
  intros off k d es ss tbl st Hd Hcount st_s st_e st_p.
  destruct (scope_table_handle d tbl Hd) as [Hh Hone].
  rewrite tree_shares_unfold, Hone in Hcount.
  assert (st_p = NodeData.destroy d st_e) as Hp by reflexivity.
  destruct (destroy_children_alive tbl ss st ltac:(lia)) as (Hcs & Hxs & Hfs).
  fold st_s in Hcs, Hxs, Hfs.
  destruct (destroy_children_alive tbl es st_s ltac:(lia)) as (Hce & Hxe & Hfe).
  fold st_e in Hce, Hxe, Hfe.
  assert (log st_p = log st_e ++ release_events (addr tbl) st_e) as Hlog.
  { rewrite Hp. unfold NodeData.destroy.
    by rewrite cleanup_release, Hh, log_release. }
  rewrite (events_between_app _ _ _ Hlog).
  split_and!; try done.
  - rewrite Hlog, (extends_events _ _ Hxe), (extends_events _ _ Hxs).
    by rewrite <- !app_assoc.
  - intros a. apply destroy_children_marks.
  - lia.
  - lia.
  - intros a. apply release_events_not_destroyed.
  - rewrite tree_shares_unfold, Hone. intros Hall. split.
    + apply release_events_last. lia.
    + rewrite Hp. unfold NodeData.destroy.
      rewrite cleanup_release, Hh, share_count_release. unfold holds.
      rewrite decide_True by done. lia.
Qed.

(** ** Scenarios *)

(** Scenario B, run: the three children are destroyed, in order, before the
    block's own handle is released and the table freed. *)
Example scenario_B_log :
  log (IRNode.destroy block_node scenario_state)
  = [EvRelease 50%N; EvDestroyed 201%N; EvDestroyed 202%N;
     EvRelease 50%N; EvDestroyed 203%N; EvRelease 50%N; EvFree 50%N].
Proof. vm_compute. reflexivity. Qed.

(** Scenario B satisfies the assumptions of C1, and its table outlives the three statement children. *)
Lemma C1_witness :
  scope_table (IRNode.fData block_node) = Some 50%N
  ∧ (tree_shares 50 block_node ≤ share_count scenario_state 50)%nat
  ∧ (EvFree 50%N ∉ events_between scenario_state
                     (IRNode.destroy_children scenario_children scenario_state))
  ∧ (1 ≤ share_count
           (IRNode.destroy_children scenario_children scenario_state) 50)%nat.
Proof.
  assert (scope_table (IRNode.fData block_node) = Some 50%N) as H1 by reflexivity.
  assert (tree_shares 50 block_node ≤ share_count scenario_state 50)%nat as H2
    by (vm_compute; lia).
  pose proof (C1_statement_children_destroyed_before_payload
                50 1 (NodeData.fBlock (BlockData.mk (addr 50) true)) []
                scenario_children 50%N scenario_state H1 H2) as H.
  simpl in H. destruct H as (_ & _ & _ & Hfree & _ & Hpos & _).
  split_and!; [exact H1 | exact H2 | exact Hfree | exact Hpos].
Defined.

(** The two cases at a source without expression children and at one with an expression child. *)
Lemma copy_assignment_from_another_node_witness :
  IRNode.fExpressionChildren wrapper_node = []
  ∧ IRNode.fExpressionChildren unary_node ≠ []
  ∧ (∃ n' st', IRNode.assign int_literal_node wrapper_node initial_state = Ok (n', st')
               ∧ IRNode.fKind n' = IRNode.fKind wrapper_node
               ∧ IRNode.fOffset n' = IRNode.fOffset wrapper_node
               ∧ IRNode.fData n' = IRNode.fData wrapper_node)
  ∧ IRNode.assign int_literal_node unary_node initial_state = Fault.
Proof.
  assert (IRNode.fExpressionChildren wrapper_node = []) as H1 by reflexivity.
  assert (IRNode.fExpressionChildren unary_node ≠ []) as H2 by (simpl; discriminate).
  split_and!; [exact H1 | exact H2 | |].
  - exact (proj1 (copy_assignment_from_another_node int_literal_node wrapper_node initial_state) H1).
  - exact (proj2 (copy_assignment_from_another_node int_literal_node unary_node initial_state) H2).
Defined.

(** C4 at a write of a Variable node's write count. *)
Lemma C4_witness :
  IRNode.perform (IRNode.OpSetWriteCount 0)
    (IRNode.mk 0 0 (NodeData.of_VariableData
                      (VariableData.mk "x"%string (addr 1) nullptr 0 0 1 0 false)) [] [])
    initial_state
  = Ok (IRNode.mk 0 0 (NodeData.of_VariableData
                         (VariableData.mk "x"%string (addr 1) nullptr 0 0 0 0 false)) [] [],
        initial_state)
  ∧ IRNode.shape
      (IRNode.mk 0 0 (NodeData.of_VariableData
                        (VariableData.mk "x"%string (addr 1) nullptr 0 0 0 0 false)) [] [])
    = NodeData.kVariable.
Proof.
  assert (IRNode.perform (IRNode.OpSetWriteCount 0)
    (IRNode.mk 0 0 (NodeData.of_VariableData
                      (VariableData.mk "x"%string (addr 1) nullptr 0 0 1 0 false)) [] [])
    initial_state
  = Ok (IRNode.mk 0 0 (NodeData.of_VariableData
                         (VariableData.mk "x"%string (addr 1) nullptr 0 0 0 0 false)) [] [],
        initial_state)) as H by reflexivity.
  split; [exact H |].
  exact (proj1 (C4_shape_changes_only_by_assignment _ _ _ _ _ H)).
Defined.

(** C5 at the block payload of scenario B: one copy, then five. *)
Lemma C5_witness :
  handle_of (IRNode.fData block_node) = addr 50
  ∧ share_count scenario_state 50 = 3%nat
  ∧ share_count (NodeData.copy (IRNode.fData block_node) scenario_state).2 50 = 4%nat
  ∧ share_count (copy_times 5 (IRNode.fData block_node) scenario_state).2 50 = 8%nat.
Proof.
  assert (handle_of (IRNode.fData block_node) = addr 50) as H1 by reflexivity.
  destruct (C5_copy_of_payload_variant (IRNode.fData block_node) scenario_state)
    as (_ & _ & _ & _ & Hone & _ & Hmany).
  split_and!; [exact H1 | reflexivity | exact (Hone 50%N H1) |].
  exact (proj2 (Hmany 5%nat 50%N H1)).
Defined.

(** C7 at the block of scenario B: an index in range and two out of range. *)
Lemma C7_witness :
  0 ≤ 1 < IRNode.statementChildCount block_node
  ∧ ¬ (0 ≤ 3 < IRNode.statementChildCount block_node)
  ∧ ¬ (0 ≤ 0 < IRNode.expressionChildCount block_node)
  ∧ IRNode.statementChild block_node 1 = Ok (202%N, string_node)
  ∧ IRNode.statementChild block_node 3 = Fault
  ∧ IRNode.expressionChild block_node 0 = Fault.
Proof.
  assert (0 ≤ 1 < IRNode.statementChildCount block_node) as H1 by (vm_compute; done).
  assert (¬ (0 ≤ 3 < IRNode.statementChildCount block_node)) as H2
    by (vm_compute; intros [_ H]; discriminate H).
  assert (¬ (0 ≤ 0 < IRNode.expressionChildCount block_node)) as H3
    by (vm_compute; intros [_ H]; discriminate H).
  destruct (C7_indexed_children 50 1 (NodeData.fBlock (BlockData.mk (addr 50) true))
              [] scenario_children 1) as (_ & _ & Hin & _).
  destruct (C7_indexed_children 50 1 (NodeData.fBlock (BlockData.mk (addr 50) true))
              [] scenario_children 3) as (_ & _ & _ & Hout & _).
  destruct (C7_indexed_children 50 1 (NodeData.fBlock (BlockData.mk (addr 50) true))
              [] scenario_children 0) as (_ & Hnone & _).
  refine (conj H1 (conj H2 (conj H3 (conj _
            (conj (proj1 (Hout H2)) (proj1 (Hnone H3))))))).
  destruct (Hin H1) as (p & Hp & _ & _ & Hchild).
  apply Hchild. simpl in Hp. by injection Hp as <-.
Defined.

(** C9 at a destination with three statement children and a source with one. *)
Lemma C9_witness :
  IRNode.assign block_node wrapper_node scenario_state
  = Ok (IRNode.mk 40 9 (NodeData.of_String "wrapper") [] scenario_children,
        NodeData.cleanup (IRNode.fData block_node) scenario_state)
  ∧ IRNode.fStatementChildren wrapper_node ≠ []
  ∧ IRNode.fStatementChildren
      (IRNode.mk 40 9 (NodeData.of_String "wrapper") [] scenario_children)
    = IRNode.fStatementChildren block_node.
Proof.
  assert (IRNode.assign block_node wrapper_node scenario_state
          = Ok (IRNode.mk 40 9 (NodeData.of_String "wrapper") [] scenario_children,
                NodeData.cleanup (IRNode.fData block_node) scenario_state))
    as H by reflexivity.
  split_and!; [exact H | simpl; discriminate |].
  exact (proj1 (proj2 (proj2 (C9_copy_assignment_frame _ _ _ _ _ H)))).
Defined.

(** * Further properties of the header *)

(** ** Accessors and type resolution *)

(** X1: the accessor of kind [k] returns the payload exactly when [k] is
    the node's active shape, and faults for each of the fourteen other
    kinds; it never reads a member that is not active. *)
Theorem X1_accessor_dispatch :
  ∀ (k : NodeData.Kind) (n : IRNode.t),
    access k n = if decide (k = IRNode.shape n) then Ok (IRNode.fData n) else Fault.
Proof. intros k [off kk d es ss]. destruct k, d; reflexivity. Qed.

Lemma type_carried n :
  IRNode.type n
  = match carried_type (IRNode.fData n) with Some p => deref p | None => Fault end.
Proof. destruct n as [off k d es ss]. by destruct d. Qed.

(** X2: [type()] is decided by the payload alone.  It faults exactly for
    the shapes without an [fType] member, dereferences a null pointer
    exactly when the active shape stores a null [fType], and otherwise
    returns the stored type; offset, kind tag and children play no part. *)
Theorem X2_type_outcomes :
  ∀ (n : IRNode.t),
    (IRNode.type n = Fault ↔ carried_type (IRNode.fData n) = None)
    ∧ (IRNode.type n = NullDeref ↔ carried_type (IRNode.fData n) = Some nullptr)
    ∧ (∀ T, IRNode.type n = Ok T ↔ carried_type (IRNode.fData n) = Some (addr T))
    ∧ (∀ off k es ss,
         IRNode.type (IRNode.mk off k (IRNode.fData n) es ss) = IRNode.type n).
Proof.
  intros n. split_and!.
  - rewrite type_carried. destruct (carried_type _) as [[|T]|]; naive_solver.
  - rewrite type_carried. destruct (carried_type _) as [[|T]|]; naive_solver.
  - intros T. rewrite type_carried.
    destruct (carried_type _) as [[|T']|]; naive_solver.
  - intros off k es ss. by rewrite !type_carried.
Qed.

(** ** Child storage *)

Lemma slot_outcomes (v : children) (i : Z) :
  let child := (_ ← SkASSERT (IRNode.in_bounds i v);
                IRNode.deref_unique (IRNode.at_index i v)) in
  let pointer := (_ ← SkASSERT (IRNode.in_bounds i v);
                  Ok (IRNode.at_index i v)) in
  child = (p ← pointer; IRNode.deref_unique p)
  ∧ (child = Fault ↔ ¬ (0 ≤ i < IRNode.int_size v))
  ∧ (child = NullDeref
     ↔ 0 ≤ i < IRNode.int_size v ∧ v !! Z.to_nat i = Some IRNode.null)
  ∧ (∀ a c, child = Ok (a, c)
            ↔ 0 ≤ i < IRNode.int_size v ∧ v !! Z.to_nat i = Some (IRNode.owns a c)).
Proof.
  intros child pointer. subst child pointer.
  destruct (decide (0 ≤ i < IRNode.int_size v)) as [Hi|Hi].
  - destruct (in_bounds_lookup i v Hi) as (p & Hp & Hat).
    rewrite (proj2 (in_bounds_spec i v) Hi), Hat, Hp. simpl.
    destruct p as [|a c]; simpl; split_and!; try done;
      try (intros a' c'); split; try done;
      try (intros [_ ?]); try (intros ?); by simplify_eq.
  - rewrite (out_of_bounds i v Hi). simpl. split_and!; try done;
      try (intros a' c'); split; try done; by intros [? _].
Qed.

(** X3: [expressionChild(i)] is [*expressionPointer(i)], and its three
    outcomes are told apart by the index and the slot: a fault exactly for
    an index outside [0, expressionChildCount()), a null dereference
    exactly for an index in range whose slot holds a null pointer, and the
    owned child exactly for an index in range whose slot owns it.  The
    same holds for [statementChild] and [statementPointer]. *)
Theorem X3_child_access_outcomes :
  ∀ (n : IRNode.t) (i : Z),
    (IRNode.expressionChild n i
     = (p ← IRNode.expressionPointer n i; IRNode.deref_unique p)
     ∧ (IRNode.expressionChild n i = Fault
        ↔ ¬ (0 ≤ i < IRNode.expressionChildCount n))
     ∧ (IRNode.expressionChild n i = NullDeref
        ↔ 0 ≤ i < IRNode.expressionChildCount n
          ∧ IRNode.fExpressionChildren n !! Z.to_nat i = Some IRNode.null)
     ∧ (∀ a c, IRNode.expressionChild n i = Ok (a, c)
        ↔ 0 ≤ i < IRNode.expressionChildCount n
          ∧ IRNode.fExpressionChildren n !! Z.to_nat i = Some (IRNode.owns a c)))
    ∧ (IRNode.statementChild n i
       = (p ← IRNode.statementPointer n i; IRNode.deref_unique p)
       ∧ (IRNode.statementChild n i = Fault
          ↔ ¬ (0 ≤ i < IRNode.statementChildCount n))
       ∧ (IRNode.statementChild n i = NullDeref
          ↔ 0 ≤ i < IRNode.statementChildCount n
            ∧ IRNode.fStatementChildren n !! Z.to_nat i = Some IRNode.null)
       ∧ (∀ a c, IRNode.statementChild n i = Ok (a, c)
          ↔ 0 ≤ i < IRNode.statementChildCount n
            ∧ IRNode.fStatementChildren n !! Z.to_nat i = Some (IRNode.owns a c))).
Proof.
  intros n i. split.
  - apply (slot_outcomes (IRNode.fExpressionChildren n) i).
  - apply (slot_outcomes (IRNode.fStatementChildren n) i).
Qed.

Lemma int_size_small {A} (v : list A) :
  Z.of_nat (length v) < 2 ^ 31 → IRNode.int_size v = Z.of_nat (length v).
Proof.
  intros Hv. unfold IRNode.int_size, to_int. apply wrap_id; [lia |].
  change (2 ^ (32 - 1)) with (2 ^ 31). lia.
Qed.

Lemma int_size_le {A} (v : list A) : IRNode.int_size v ≤ Z.of_nat (length v).
Proof. unfold IRNode.int_size, to_int. apply wrap_le; lia. Qed.

(** X4: the child counts never exceed the number of stored children, and
    they equal it whenever that number fits an [int] (is below 2^31); an
    index is then accepted exactly when it is below the number of
    children. *)
Theorem X4_child_counts :
  ∀ (n : IRNode.t),
    IRNode.expressionChildCount n ≤ Z.of_nat (length (IRNode.fExpressionChildren n))
    ∧ IRNode.statementChildCount n ≤ Z.of_nat (length (IRNode.fStatementChildren n))
    ∧ (Z.of_nat (length (IRNode.fExpressionChildren n)) < 2 ^ 31 →
       IRNode.expressionChildCount n
       = Z.of_nat (length (IRNode.fExpressionChildren n))
       ∧ ∀ i, (∃ p, IRNode.expressionPointer n i = Ok p)
              ↔ 0 ≤ i < Z.of_nat (length (IRNode.fExpressionChildren n)))
    ∧ (Z.of_nat (length (IRNode.fStatementChildren n)) < 2 ^ 31 →
       IRNode.statementChildCount n
       = Z.of_nat (length (IRNode.fStatementChildren n))
       ∧ ∀ i, (∃ p, IRNode.statementPointer n i = Ok p)
              ↔ 0 ≤ i < Z.of_nat (length (IRNode.fStatementChildren n))).
Proof.
  intros n.
  assert (∀ (v : children) i, Z.of_nat (length v) < 2 ^ 31 →
            (∃ p, (_ ← SkASSERT (IRNode.in_bounds i v); Ok (IRNode.at_index i v))
                  = Ok p)
            ↔ 0 ≤ i < Z.of_nat (length v)) as Hslot.
  { intros v i Hv. rewrite <- (int_size_small v Hv), <- in_bounds_spec.
    destruct (IRNode.in_bounds i v); simpl.
    - split; [done | by eexists].
    - split; [by intros [? ?] | done]. }
  split_and!.
  - apply int_size_le.
  - apply int_size_le.
  - intros Hv. split; [by apply int_size_small |]. intros i. by apply Hslot.
  - intros Hv. split; [by apply int_size_small |]. intros i. by apply Hslot.
Qed.

(** X4 at the block of scenario B: three statement children, no
    expression child. *)
Lemma X4_witness :
  Z.of_nat (length (IRNode.fStatementChildren block_node)) < 2 ^ 31
  ∧ IRNode.statementChildCount block_node = 3.
Proof.
  assert (Z.of_nat (length (IRNode.fStatementChildren block_node)) < 2 ^ 31)
    as H by (vm_compute; reflexivity).
  split; [exact H |].
  destruct (X4_child_counts block_node) as (_ & _ & _ & Hs).
  exact (proj1 (Hs H)).
Defined.

(** ** The payload variant and the store *)

Lemma release_events_free_iff p st t :
  EvFree t ∈ release_events p st ↔ p = addr t ∧ (share_count st t ≤ 1)%nat.
Proof.
  split; [apply release_events_free |].
  intros [-> Hle]. by apply release_events_last.
Qed.

Lemma acquire_events_no_free p t : EvFree t ∉ acquire_events p.
Proof. intros Hin. apply acquire_events_only in Hin as (u & ? & _). done. Qed.

Lemma holds_addr t : holds (addr t) t = 1%nat.
Proof. unfold holds. by rewrite decide_True. Qed.

Lemma holds_le_1 p t : (holds p t ≤ 1)%nat.
Proof. unfold holds. case_decide; lia. Qed.

Lemma holds_pos p t : (1 ≤ holds p t)%nat ↔ p = addr t.
Proof. unfold holds. case_decide; split; (done || lia). Qed.

(** X5: copying a payload variant and then destroying the copy leaves the
    use count of every table as it was.  The round trip frees a table only
    in the degenerate case that the source holds a handle on a table whose
    use count is zero, that is, never when the source's own share is
    counted. *)
Theorem X5_copy_then_destroy :
  ∀ (other : NodeData.t) (st : State) (t : loc),
    let res := NodeData.copy other st in
    let st' := NodeData.destroy res.1 res.2 in
    share_count st' t = share_count st t
    ∧ (EvFree t ∈ events_between st st'
       ↔ handle_of other = addr t ∧ share_count st t = 0%nat).
Proof.
  intros other st t res st'. subst res st'.
  rewrite copy_value, copy_state. unfold NodeData.destroy.
  rewrite cleanup_release. split.
  - rewrite share_count_release, share_count_acquire. lia.
  - erewrite events_between_app; last first.
    { rewrite log_release, log_acquire, <- app_assoc. done. }
    rewrite elem_of_app, release_events_free_iff, share_count_acquire.
    split.
    + intros [Hin|[Hh Hle]]; [by apply acquire_events_no_free in Hin |].
      split; [done |]. rewrite Hh, holds_addr in Hle. lia.
    + intros [Hh Hz]. right. split; [done |]. rewrite Hh, holds_addr. lia.
Qed.

(** X6: each of the three converting constructors that take a payload with
    a handle stores the payload as given, under the matching shape, and
    adds one share to the table the handle refers to; destroying the
    variant afterwards gives back the use counts from before. *)
Theorem X6_converting_constructors :
  ∀ (st : State) (t : loc),
    (∀ d, let r := NodeData.of_BlockData d st in
          r.1 = NodeData.fBlock d
          ∧ share_count r.2 t
            = (share_count st t + holds (BlockData.fSymbolTable d) t)%nat
          ∧ share_count (NodeData.destroy r.1 r.2) t = share_count st t)
    ∧ (∀ d, let r := NodeData.of_EnumData d st in
            r.1 = NodeData.fEnum d
            ∧ share_count r.2 t
              = (share_count st t + holds (EnumData.fSymbols d) t)%nat
            ∧ share_count (NodeData.destroy r.1 r.2) t = share_count st t)
    ∧ (∀ d, let r := NodeData.of_ForStatementData d st in
            r.1 = NodeData.fForStatement d
            ∧ share_count r.2 t
              = (share_count st t + holds (ForStatementData.fSymbolTable d) t)%nat
            ∧ share_count (NodeData.destroy r.1 r.2) t = share_count st t).
Proof.
  intros st t. split_and!; intros [] r; subst r;
    unfold NodeData.of_BlockData, NodeData.of_EnumData,
      NodeData.of_ForStatementData, NodeData.emplace_BlockData,
      NodeData.emplace_EnumData, NodeData.emplace_ForStatementData,
      NodeData.destroy;
    rewrite assign_onto_null; simpl;
    rewrite ?share_count_release, !share_count_acquire;
    split_and!; (done || lia).
Qed.

(** X7: which kind a variant defaults to before the body of its copy
    constructor runs does not matter among the kinds made of scalars and
    raw pointers only ([kType] in the source): [cleanup()] does nothing
    for such a kind, so the copy is the same variant with the same
    store. *)
Theorem X7_default_kind_is_irrelevant :
  ∀ (u other : NodeData.t) (st : State),
    NodeData.scalar_only (NodeData.fKind u) = true →
    NodeData.cleanup u st = st
    ∧ NodeData.assign u other st = NodeData.copy other st.
Proof.
  intros u other st Hu.
  assert (NodeData.cleanup u st = st) as Hc by (by destruct u).
  split; [done |]. unfold NodeData.copy, NodeData.assign. by rewrite Hc.
Qed.

(** X7 at an int literal variant standing in for the default. *)
Lemma X7_witness :
  NodeData.scalar_only (NodeData.fKind (IRNode.fData int_literal_node)) = true
  ∧ NodeData.assign (IRNode.fData int_literal_node) (IRNode.fData block_node)
      scenario_state
    = NodeData.copy (IRNode.fData block_node) scenario_state.
Proof.
  assert (NodeData.scalar_only (NodeData.fKind (IRNode.fData int_literal_node)) = true)
    as H by reflexivity.
  split; [exact H |].
  exact (proj2 (X7_default_kind_is_irrelevant _ (IRNode.fData block_node)
                  scenario_state H)).
Defined.

Lemma assign_events this other st :
  events_between st (NodeData.assign this other st).2
  = release_events (handle_of this) st ++ acquire_events (handle_of other).
Proof.
  apply events_between_app.
  by rewrite assign_state, log_acquire, cleanup_release, log_release, app_assoc.
Qed.

(** X8: assigning to a payload variant frees a table exactly when the
    destination held a handle on it and that handle was the last share;
    the table the source refers to is never freed by the assignment
    unless it is that same table. *)
Theorem X8_assignment_frees_last_share :
  ∀ (this other : NodeData.t) (st : State) (t : loc),
    EvFree t ∈ events_between st (NodeData.assign this other st).2
    ↔ handle_of this = addr t ∧ (share_count st t ≤ 1)%nat.
Proof.
  intros this other st t.
  rewrite assign_events, elem_of_app, release_events_free_iff.
  split; [| by left].
  intros [?|Hin]; [done |]. by apply acquire_events_no_free in Hin.
Qed.

(** X9: when destination and source both hold a handle on the same table
    and both shares are counted, the assignment leaves the table's use
    count as it was and does not free the table, although the destination
    drops its share before it takes the new one. *)
Theorem X9_assignment_between_holders :
  ∀ (this other : NodeData.t) (st : State) (t : loc),
    handle_of this = addr t →
    handle_of other = addr t →
    (2 ≤ share_count st t)%nat →
    let res := NodeData.assign this other st in
    share_count res.2 t = share_count st t
    ∧ (1 ≤ share_count (NodeData.cleanup this st) t)%nat
    ∧ (EvFree t ∉ events_between st res.2)
    ∧ events_between st res.2 = [EvRelease t; EvAcquire t].
Proof.
  intros this other st t Hthis Hother Hcount res. subst res.
  rewrite assign_events, assign_state, share_count_acquire, cleanup_release,
    share_count_release, Hthis, Hother, holds_addr. simpl.
  rewrite decide_False by lia. split_and!; try lia; try done.
  simpl. rewrite !not_elem_of_cons. split_and!; try done. by intros ?%elem_of_nil.
Qed.

(** X9 at two block payloads of scenario B. *)
Lemma X9_witness :
  handle_of (IRNode.fData block_node) = addr 50
  ∧ handle_of (IRNode.fData nested_block_node) = addr 50
  ∧ (2 ≤ share_count scenario_state 50)%nat
  ∧ share_count
      (NodeData.assign (IRNode.fData block_node) (IRNode.fData nested_block_node)
         scenario_state).2 50
    = share_count scenario_state 50.
Proof.
  assert (handle_of (IRNode.fData block_node) = addr 50) as H1 by reflexivity.
  assert (handle_of (IRNode.fData nested_block_node) = addr 50) as H2 by reflexivity.
  assert (2 ≤ share_count scenario_state 50)%nat as H3 by (vm_compute; lia).
  refine (conj H1 (conj H2 (conj H3 _))).
  exact (proj1 (X9_assignment_between_holders _ _ _ _ H1 H2 H3)).
Defined.



(** ** Destruction of a tree *)

Section tree_accounting.
Variable tbl : loc.

Lemma accounts_refl st : accounts tbl 0 st st.
Proof.
  split_and!; [lia | apply extends_refl |].
  unfold events_between. rewrite drop_all, elem_of_nil. lia.
Qed.

Lemma accounts_trans a b st1 st2 st3 :
  accounts tbl a st1 st2 → accounts tbl b st2 st3 →
  accounts tbl (a + b) st1 st3.
Proof.
  intros (Hc1 & He1 & Hf1) (Hc2 & He2 & Hf2). split_and!.
  - rewrite Hc2, Hc1. lia.
  - by eapply extends_trans.
  - rewrite (events_between_trans st1 st2 st3) by done.
    rewrite elem_of_app, Hf1, Hf2, Hc1. lia.
Qed.

Lemma accounts_emit a st : accounts tbl 0 st (emit (EvDestroyed a) st).
Proof.
  split_and!; [rewrite share_count_emit; lia | apply extends_emit |].
  erewrite events_between_app by done.
  rewrite list_elem_of_singleton. split; [done | lia].
Qed.

Lemma accounts_release p st :
  accounts tbl (holds p tbl) st (shared_ptr_release p st).
Proof.
  split_and!.
  - apply share_count_release.
  - apply extends_release.
  - rewrite (events_between_app _ _ _ (log_release p st)).
    rewrite release_events_free_iff, holds_pos. split.
    + intros [-> Hle]. rewrite holds_addr. done.
    + intros [-> Hle]. rewrite holds_addr in Hle. done.
Qed.

Lemma accounts_eq a b st st' :
  a = b → accounts tbl a st st' → accounts tbl b st st'.
Proof. by intros ->. Qed.

Lemma destroy_children_accounts v :
  Forall (IRNode.child_all
            (λ n, ∀ st, accounts tbl (tree_shares tbl n) st (IRNode.destroy n st))) v →
  ∀ st, accounts tbl (children_shares tbl v) st (IRNode.destroy_children v st).
Proof.
  induction 1 as [|p v Hp _ IH]; intros st; [apply accounts_refl |].
  rewrite destroy_children_cons.
  change (children_shares tbl (p :: v))
    with (ptr_shares tbl p + children_shares tbl v)%nat.
  eapply accounts_trans; [| apply IH].
  destruct p as [|a child]; simpl; [apply accounts_refl |].
  apply (accounts_eq (tree_shares tbl child + 0)); [lia |].
  eapply accounts_trans; [apply Hp | apply accounts_emit].
Qed.

Lemma destroy_accounts n st :
  accounts tbl (tree_shares tbl n) st (IRNode.destroy n st).
Proof.
  revert st. induction n as [off k d es ss IHes IHss] using IRNode.tree_ind.
  intros st. rewrite tree_shares_unfold, destroy_unfold.
  apply (accounts_eq
           (children_shares tbl ss + (children_shares tbl es + NodeData.shares tbl d)));
    [lia |].
  eapply accounts_trans; [by apply destroy_children_accounts |].
  eapply accounts_trans; [by apply destroy_children_accounts |].
  unfold NodeData.destroy. rewrite cleanup_release, shares_handle_of.
  apply accounts_release.
Qed.
End tree_accounting.

(** X11: destroying a node releases exactly the handles its tree holds:
    the use count of every table drops by the number of handles on that
    table found in the node's payload and in all its descendants (and
    stops at zero). *)
Theorem X11_destroy_releases_tree_shares :
  ∀ (n : IRNode.t) (st : State) (t : loc),
    share_count (IRNode.destroy n st) t
    = (share_count st t - tree_shares t n)%nat.
Proof. intros n st t. apply (destroy_accounts t n st). Qed.

(** X12: destroying a node frees a table exactly when the node's tree
    holds a handle on it and no share is left outside the tree; a table
    with a holder outside the tree survives, and a table the tree does not
    refer to is never freed. *)
Theorem X12_destroy_frees_exactly_owned_tables :
  ∀ (n : IRNode.t) (st : State) (t : loc),
    EvFree t ∈ events_between st (IRNode.destroy n st)
    ↔ (1 ≤ tree_shares t n)%nat ∧ (share_count st t ≤ tree_shares t n)%nat.
Proof. intros n st t. apply (destroy_accounts t n st). Qed.

(** *** The order of a teardown *)

Lemma without_free_app tr1 tr2 :
  without_free (tr1 ++ tr2) = without_free tr1 ++ without_free tr2.
Proof. apply filter_app. Qed.

Lemma without_free_release p st :
  without_free (release_events p st)
  = match p with nullptr => [] | addr t => [EvRelease t] end.
Proof. destruct p as [|t]; simpl; [done |]. by case_decide. Qed.

Lemma teardown_script_unfold off k d es ss :
  teardown_script (IRNode.mk off k d es ss)
  = flat_map ptr_script ss ++ flat_map ptr_script es
    ++ match handle_of d with nullptr => [] | addr t => [EvRelease t] end.
Proof. reflexivity. Qed.

Lemma destroy_children_script v :
  Forall (IRNode.child_all
            (λ n, ∀ st, without_free (events_between st (IRNode.destroy n st))
                        = teardown_script n)) v →
  ∀ st, without_free (events_between st (IRNode.destroy_children v st))
        = flat_map ptr_script v.
Proof.
  induction 1 as [|p v Hp _ IH]; intros st.
  - unfold events_between. simpl. by rewrite drop_all.
  - rewrite destroy_children_cons.
    rewrite (events_between_trans st (IRNode.destroy_ptr st p))
      by auto using destroy_ptr_extends, destroy_children_extends'.
    rewrite without_free_app, IH. simpl. f_equal.
    destruct p as [|a child]; simpl.
    + unfold events_between. by rewrite drop_all.
    + rewrite (events_between_trans st (IRNode.destroy child st))
        by auto using destroy_extends, extends_emit.
      rewrite without_free_app, Hp. f_equal.
      erewrite events_between_app by done. reflexivity.
Qed.

Lemma destroy_script n st :
  without_free (events_between st (IRNode.destroy n st)) = teardown_script n.
Proof.
  revert st. induction n as [off k d es ss IHes IHss] using IRNode.tree_ind.
  intros st. rewrite teardown_script_unfold, destroy_unfold.
  set (st_s := IRNode.destroy_children ss st).
  set (st_e := IRNode.destroy_children es st_s).
  assert (extends st st_s) by apply destroy_children_extends'.
  assert (extends st_s st_e) by apply destroy_children_extends'.
  assert (extends st_e (NodeData.destroy d st_e)).
  { unfold NodeData.destroy. rewrite cleanup_release. apply extends_release. }
  rewrite (events_between_trans st st_s) by eauto using extends_trans.
  rewrite (events_between_trans st_s st_e) by done.
  rewrite !without_free_app. subst st_s st_e.
  rewrite !destroy_children_script by done. do 2 f_equal.
  unfold NodeData.destroy. rewrite cleanup_release.
  rewrite (events_between_app _ _ _ (log_release _ _)).
  apply without_free_release.
Qed.

(** X13: the teardown of a node runs in three stages that follow the
    declaration order of its members: every statement child the node owns
    is destroyed in the first stage, every expression child it owns in the
    second, and the third consists of the release of the payload's handle
    alone.  So expression children, too, are gone before the payload, and
    they go after the statement children. *)
Theorem X13_teardown_stages :
  ∀ (n : IRNode.t) (st : State),
    let st_s := IRNode.destroy_children (IRNode.fStatementChildren n) st in
    let st_e := IRNode.destroy_children (IRNode.fExpressionChildren n) st_s in
    let st_p := IRNode.destroy n st in
    log st_p = log st ++ events_between st st_s
                      ++ events_between st_s st_e
                      ++ events_between st_e st_p
    ∧ (∀ a, a ∈ owned (IRNode.fStatementChildren n) →
            EvDestroyed a ∈ events_between st st_s)
    ∧ (∀ a, a ∈ owned (IRNode.fExpressionChildren n) →
            EvDestroyed a ∈ events_between st_s st_e)
    ∧ events_between st_e st_p
      = release_events (handle_of (IRNode.fData n)) st_e.
Proof.
  intros [off k d es ss] st st_s0 st_e0 st_p0. subst st_s0 st_e0 st_p0.
  rewrite destroy_unfold.
  cbn [IRNode.fStatementChildren IRNode.fExpressionChildren IRNode.fData].
  set (st_s := IRNode.destroy_children ss st).
  set (st_e := IRNode.destroy_children es st_s).
  assert (extends st st_s) as Hs by apply destroy_children_extends'.
  assert (extends st_s st_e) as He by apply destroy_children_extends'.
  assert (log (NodeData.destroy d st_e)
          = log st_e ++ release_events (handle_of d) st_e) as Hp.
  { unfold NodeData.destroy. by rewrite cleanup_release, log_release. }
  rewrite (events_between_app _ _ _ Hp). split_and!.
  - rewrite Hp, (extends_events _ _ He), (extends_events _ _ Hs).
    by rewrite <- !app_assoc.
  - intros a. apply destroy_children_marks.
  - intros a. apply destroy_children_marks.
  - done.
Qed.

Lemma releases_of_app t tr1 tr2 :
  releases_of t (tr1 ++ tr2) = (releases_of t tr1 + releases_of t tr2)%nat.
Proof. unfold releases_of. by rewrite filter_app, length_app. Qed.

Lemma releases_of_without_free t tr :
  releases_of t (without_free tr) = releases_of t tr.
Proof.
  unfold releases_of, without_free. induction tr as [|e tr IH]; [done |].
  rewrite !filter_cons. destruct e; simpl;
    repeat case_decide; simpl; rewrite ?filter_cons;
    repeat case_decide; simpl; try done; try congruence; by rewrite IH.
Qed.

Lemma script_children_releases t v :
  Forall (IRNode.child_all
            (λ n, releases_of t (teardown_script n) = tree_shares t n
                  ∧ ∀ u, EvAcquire u ∉ teardown_script n)) v →
  releases_of t (flat_map ptr_script v) = children_shares t v
  ∧ ∀ u, EvAcquire u ∉ flat_map ptr_script v.
Proof.
  induction 1 as [|p v Hp _ [IHr IHa]]; [split; [done | by intros u ?%elem_of_nil] |].
  simpl. rewrite releases_of_app, IHr.
  change (children_shares t (p :: v))
    with (ptr_shares t p + children_shares t v)%nat.
  destruct p as [|a child]; simpl.
  - split; [done |]. apply IHa.
  - destruct Hp as [Hr Ha]. split.
    + rewrite releases_of_app, Hr.
      change (releases_of t [EvDestroyed a]) with 0%nat. lia.
    + intros u. rewrite !not_elem_of_app, list_elem_of_singleton. naive_solver.
Qed.

Lemma script_releases t n :
  releases_of t (teardown_script n) = tree_shares t n
  ∧ ∀ u, EvAcquire u ∉ teardown_script n.
Proof.
  induction n as [off k d es ss IHes IHss] using IRNode.tree_ind.
  rewrite teardown_script_unfold, tree_shares_unfold.
  destruct (script_children_releases t ss IHss) as [Hsr Hsa].
  destruct (script_children_releases t es IHes) as [Her Hea].
  split.
  - rewrite !releases_of_app, Hsr, Her, shares_handle_of.
    assert (releases_of t
              match handle_of d with nullptr => [] | addr t0 => [EvRelease t0] end
            = holds (handle_of d) t) as ->; [| lia].
    unfold releases_of, holds. destruct (handle_of d) as [|u]; [done |].
    rewrite filter_cons, filter_nil. repeat case_decide; simpl; congruence.
  - intros u. rewrite !not_elem_of_app. split_and!; [apply Hsa | apply Hea |].
    destruct (handle_of d); [by intros ?%elem_of_nil |].
    by rewrite list_elem_of_singleton.
Qed.

(** X14: a teardown takes no new share of any table, and it releases a
    handle on a table exactly as many times as the node's tree holds a
    handle on that table: no handle is released twice and none is left
    behind. *)
Theorem X14_teardown_releases_each_handle_once :
  ∀ (n : IRNode.t) (st : State) (t : loc),
    releases_of t (events_between st (IRNode.destroy n st)) = tree_shares t n
    ∧ (EvAcquire t ∉ events_between st (IRNode.destroy n st)).
Proof.
  intros n st t. destruct (script_releases t n) as [Hr Ha]. split.
  - by rewrite <- releases_of_without_free, destroy_script.
  - intros Hin. apply (Ha t). rewrite <- (destroy_script n st).
    unfold without_free. apply list_elem_of_filter. done.
Qed.

(** ** Assignments in sequence *)




(** A run of the teardown of a node with children of both kinds: the
    statement child goes first, then the expression child, then the
    payload's handle; table 50 loses its two shares and is freed, table 60
    keeps the share held outside the tree. *)
Example enum_node_teardown :
  log (IRNode.destroy enum_node two_tables_state)
  = [EvRelease 50%N; EvDestroyed 302%N;
     EvRelease 50%N; EvFree 50%N; EvDestroyed 301%N;
     EvRelease 60%N]
  ∧ share_count (IRNode.destroy enum_node two_tables_state) 50 = 0%nat
  ∧ share_count (IRNode.destroy enum_node two_tables_state) 60 = 1%nat.
Proof. vm_compute. done. Qed.

(** ** Assignment of an object to itself *)

Lemma assign_self_events this st :
  events_between st (NodeData.assign_self this st).2
  = release_events (handle_of this) st.
Proof.
  apply events_between_app. unfold NodeData.assign_self. simpl.
  by rewrite cleanup_release, log_release.
Qed.

(** C6: when a payload variant is assigned to itself the old shape is torn
    down and the values of the source are not what the variant holds
    afterwards.  A String variant ends empty whatever text it held; a
    Block variant ends with a null handle, and the share it held is
    released without a new one being taken, which frees the table if that
    share was the last. *)
Theorem C6_self_assignment_loses_payload :
  ∀ (st : State) (t : loc) (scope : bool),
    (∀ text, NodeData.assign_from (NodeData.of_String text) NodeData.itself st
             = (NodeData.of_String "", st))
    ∧ NodeData.assign_from (NodeData.of_String "text") NodeData.itself st
      ≠ (NodeData.of_String "text", st)
    ∧ (let this := NodeData.fBlock (BlockData.mk (addr t) scope) in
       let res := NodeData.assign_from this NodeData.itself st in
       res.1 = NodeData.fBlock (BlockData.mk nullptr scope)
       ∧ res.1 ≠ this
       ∧ share_count res.2 t = (share_count st t - 1)%nat
       ∧ events_between st res.2 = release_events (addr t) st
       ∧ (EvFree t ∈ events_between st res.2 ↔ (share_count st t ≤ 1)%nat)).
Proof.
  intros st t scope. split; [done |]. split; [done |].
  intros this res. subst this res.
  unfold NodeData.assign_from, NodeData.assign_self.
  cbn [fst snd NodeData.cleanup NodeData.reinitialised
       BlockData.fSymbolTable BlockData.fIsScope].
  rewrite (events_between_app _ _ _ (log_release (addr t) st)).
  split_and!.
  - done.
  - done.
  - by rewrite share_count_release, holds_addr.
  - done.
  - rewrite release_events_free_iff. split; [by intros [_ ?] | done].
Qed.

(** C3: copy-assigning a node without expression children to itself
    returns, but the payload of the node afterwards is not the payload
    the source had.  A string literal node ends with the empty text; the
    block of scenario B ends with a null handle while it still owns its
    three statement children, and the table they refer to has lost the
    block's share. *)
Theorem C3_self_assignment_loses_payload :
  ∀ (off k : Z) (ss : children) (st : State),
    (∀ text,
       IRNode.assign_self (IRNode.mk off k (NodeData.of_String text) [] ss) st
       = Ok (IRNode.mk off k (NodeData.of_String "") [] ss, st))
    ∧ (∃ n' st',
         IRNode.assign_self string_node st = Ok (n', st')
         ∧ IRNode.fExpressionChildren string_node = []
         ∧ IRNode.fData n' ≠ IRNode.fData string_node)
    ∧ (∃ n' st',
         IRNode.assign_self block_node scenario_state = Ok (n', st')
         ∧ IRNode.fData n' = NodeData.fBlock (BlockData.mk nullptr true)
         ∧ IRNode.fStatementChildren n' = scenario_children
         ∧ share_count scenario_state 50 = 3%nat
         ∧ share_count st' 50 = 2%nat).
Proof.
  intros off k ss st. split_and!.
  - done.
  - by eexists _, _.
  - eexists _, _. split; [reflexivity |]. split_and!; try done.
Qed.
